(** * Gesture Rock-Paper-Scissors-Pencil: a shallow embedding of [main.py]

    The three classes of the program are modelled in three modules that
    keep their names: [GestureRecognizer] (the finger classifier),
    [GestureRPSGame] (the win rules and the score) and [GestureRPSApp] (the
    debouncing of gestures, the lock-out after a round and the reset).

    Conventions.
    - Python [int] is [Z]; Python [float] is a binary64 [float]; [str] is
      [string].
    - A Python exception ([IndexError], [KeyError]) is [None] in the option
      monad; stdpp's [x ← e; k] sequences calls that may raise.
    - A [dict] is a [gmap], a [set] a [gset], a tuple used as a sequence a
      [list].
    - Tk's [after] queue, the camera, MediaPipe and [random] are outside the
      program: the queue is modelled by the little it promises ([Tk] below),
      the three others by the values they deliver to one video tick
      ([Tick]). *)

From Stdlib Require Import ZArith String Ascii List Bool Floats.
From stdpp Require Import base option list strings gmap fin_maps pretty.

Local Open Scope string_scope.
Local Open Scope Z_scope.

(** ** GestureRecognizer *)

Record GestureResult := {
  name : string;
  confidence : float;
}.

Module GestureRecognizer.

(** One MediaPipe landmark; the classifier reads [y] only. *)
Record Landmark := { x : float; y : float; z : float }.

(** [hand_landmarks.landmark]: the repeated field of landmarks of a hand. *)
Abbreviation Hand := (list Landmark).

(** [_FINGER_LANDMARKS]: finger name to (tip index, pip index), in the
    order the dict literal lists them. *)
Definition _FINGER_LANDMARKS : list (string * (nat * nat)) :=
  [ ("thumb", (4, 3));
    ("index", (8, 6));
    ("middle", (12, 10));
    ("ring", (16, 14));
    ("pinky", (20, 18)) ]%nat.

(** [_is_extended]: [landmark[tip].y < landmark[pip].y]; indexing past
    the end raises. *)
Definition _is_extended (landmarks : Hand) (tip_idx pip_idx : nat)
  : option bool :=
  tip ← landmarks !! tip_idx;
  pip ← landmarks !! pip_idx;
  Some (PrimFloat.ltb (y tip) (y pip)).

(** The dict comprehension [fingers_extended]. *)
Definition fingers_extended (landmarks : Hand) : option (list (string * bool)) :=
  mapM (λ '(finger, (tip_idx, pip_idx)),
          b ← _is_extended landmarks tip_idx pip_idx; Some (finger, b))
       _FINGER_LANDMARKS.

(** [d[key]] on the comprehension's result. *)
Fixpoint getitem (d : list (string * bool)) (key : string) : option bool :=
  match d with
  | [] => None
  | (k, v) :: d' => if decide (k = key) then Some v else getitem d' key
  end.

Definition any (bs : list bool) : bool := existsb (λ b, b) bs.
Definition all (bs : list bool) : bool := forallb (λ b, b) bs.

(** The chain of [if]s of [_classify], on the five booleans. *)
Definition classify_fingers (thumb index middle ring pinky : bool) : string :=
  if negb (any [thumb; index; middle; ring; pinky]) then "rock"
  else if all [thumb; index; middle; ring; pinky] then "paper"
  else if index && negb (any [middle; ring; pinky]) then "pencil"
  else if index && middle && negb (any [ring; pinky]) then "scissors"
  else "unknown".

Definition _classify (landmarks : Hand) : option string :=
  fe ← fingers_extended landmarks;
  thumb ← getitem fe "thumb";
  index ← getitem fe "index";
  middle ← getitem fe "middle";
  ring ← getitem fe "ring";
  pinky ← getitem fe "pinky";
  Some (classify_fingers thumb index middle ring pinky).

(** [process], after MediaPipe has run: [multi_hand_landmarks] is the list
    of detected hands, empty when it is [None]. The second component is
    the landmarks handed to the overlay. *)
Definition process (multi_hand_landmarks : list Hand)
  : option (GestureResult * option Hand) :=
  match multi_hand_landmarks with
  | [] => Some ({| name := "unknown"; confidence := 0.0 |}, None)
  | hand_landmarks :: _ =>
      gesture_name ← _classify hand_landmarks;
      let confidence :=
        if decide (gesture_name ≠ "unknown") then 1.0%float else 0.0%float in
      Some ({| name := gesture_name; confidence := confidence |},
            Some hand_landmarks)
  end.

End GestureRecognizer.

(** ** Python built-ins the program calls *)

Module Py.

Definition nl : string := String (ascii_of_nat 10) "".

Definition is_upper (c : ascii) : bool :=
  let n := nat_of_ascii c in Nat.leb 65 n && Nat.leb n 90.
Definition is_lower (c : ascii) : bool :=
  let n := nat_of_ascii c in Nat.leb 97 n && Nat.leb n 122.
Definition to_upper (c : ascii) : ascii :=
  if is_lower c then ascii_of_nat (nat_of_ascii c - 32) else c.
Definition to_lower (c : ascii) : ascii :=
  if is_upper c then ascii_of_nat (nat_of_ascii c + 32) else c.

(** [str.title()], for the ASCII letters: a cased character is upper-cased
    when the character before it is not cased and lower-cased when it is;
    every other character is kept. Bytes above 127 are kept as they are,
    so [title] is Python's [str.title()] on ASCII text only, the four moves
    included; no theorem below says what the titled form of any other
    string is. *)
Fixpoint title_from (previous_is_cased : bool) (s : string) : string :=
  match s with
  | EmptyString => EmptyString
  | String c s' =>
      if is_upper c || is_lower c
      then String (if previous_is_cased then to_lower c else to_upper c)
                  (title_from true s')
      else String c (title_from false s')
  end.
Definition title (s : string) : string := title_from false s.

(** [str(n)] for an int. *)
Definition str (n : Z) : string := pretty n.

(** [random.choice(seq)]: the element at the index the generator draws,
    [rnd] reduced below [len(seq)]; an empty sequence raises. *)
Definition choice {A} (seq : list A) (rnd : nat) : option A :=
  seq !! (rnd `mod` length seq)%nat.

(** [d[key] += 1] on a dict of ints; a missing key raises. *)
Definition incr (key : string) (d : gmap string Z) : option (gmap string Z) :=
  v ← d !! key; Some (<[key := v + 1]> d).

End Py.

(** ** GestureRPSGame *)

Module GestureRPSGame.

Definition MOVES : list string := ["rock"; "paper"; "scissors"; "pencil"].

Definition WIN_RULES : gmap string (gset string) :=
  {[ "rock" := {[ "scissors"; "pencil" ]};
     "paper" := {[ "rock" ]};
     "scissors" := {[ "paper"; "pencil" ]};
     "pencil" := {[ "paper" ]} ]}.

(** The object: its one attribute is the score dict. *)
Record t := { score : gmap string Z }.

Definition __init__ : t :=
  {| score := {[ "player" := 0; "computer" := 0; "ties" := 0 ]} |}.

Definition get_computer_move (rnd : nat) : option string :=
  Py.choice MOVES rnd.

(** [resolve_round]: the message returned and the object after the call. *)
Definition resolve_round (self : t) (player_move computer_move : string)
  : option (string * t) :=
  if decide (player_move = computer_move) then
    score' ← Py.incr "ties" (score self);
    Some ("It's a tie!", {| score := score' |})
  else if decide (computer_move ∈ default ∅ (WIN_RULES !! player_move)) then
    score' ← Py.incr "player" (score self);
    Some ("You win! " ++ Py.title player_move ++ " beats " ++ computer_move ++ ".",
          {| score := score' |})
  else
    score' ← Py.incr "computer" (score self);
    Some ("I win! " ++ Py.title computer_move ++ " beats " ++ player_move ++ ".",
          {| score := score' |}).

End GestureRPSGame.

(** ** Tk: the [after] queue of the window *)

Module Tk.

(** The two bound methods the program hands to [after]. *)
Inductive callback := cb_update_video | cb_release_lockout.

#[global] Instance callback_eq_dec : EqDecision callback.
Proof. solve_decision. Defined.

(** [now]: the clock in milliseconds; [next_id]: the number of the next
    identifier ([after#n]); [pending]: the callbacks registered and not
    yet run or cancelled, with the time each is due. *)
Record t := {
  now : Z;
  next_id : nat;
  pending : gmap nat (Z * callback);
}.

Definition after (ms : Z) (cb : callback) (w : t) : nat * t :=
  (next_id w,
   {| now := now w;
      next_id := S (next_id w);
      pending := <[next_id w := (now w + ms, cb)]> (pending w) |}).

(** Cancelling an identifier that is not pending is a no-op. *)
Definition after_cancel (id : nat) (w : t) : t :=
  {| now := now w; next_id := next_id w; pending := delete id (pending w) |}.

Definition sleep (dt : Z) (w : t) : t :=
  {| now := now w + dt; next_id := next_id w; pending := pending w |}.

(** The main loop runs a callback once it is due, the earliest due first,
    and forgets it. Of callbacks due at the same time Tk runs the one
    registered first; [due_first] lets either run. *)
Definition due_first (id : nat) (w : t) : option callback :=
  '(due, cb) ← pending w !! id;
  if bool_decide (due ≤ now w ∧
                  map_Forall (λ _ (e : Z * callback), due ≤ e.1) (pending w))
  then Some cb else None.

Definition take (id : nat) (w : t) : t :=
  {| now := now w; next_id := next_id w; pending := delete id (pending w) |}.

Definition create : t := {| now := 0; next_id := 0; pending := ∅ |}.

End Tk.

(** ** GestureRPSApp *)

(** What the world delivers to one run of [_update_video]: the camera's
    [ret], MediaPipe's [multi_hand_landmarks] for the frame, and the draw
    [random.choice] makes if a round is resolved. *)
Record Tick := {
  ret : bool;
  multi_hand_landmarks : list GestureRecognizer.Hand;
  rnd : nat;
}.

Module GestureRPSApp.

(** The attributes of the application object that the game logic reads or
    writes. The four [tk.StringVar]s hold what the labels show; [window]
    is the [after] queue. The video label and the styles are display
    only. *)
Record t := {
  game : GestureRPSGame.t;
  last_gesture : string;
  _gesture_frames : Z;
  _lockout : bool;
  _lockout_after_id : option nat;
  status_var : string;
  _player_score_var : string;
  _computer_score_var : string;
  _tie_score_var : string;
  window : Tk.t;
}.

Definition set_game v (s : t) : t :=
  {| game := v; last_gesture := last_gesture s;
     _gesture_frames := _gesture_frames s; _lockout := _lockout s;
     _lockout_after_id := _lockout_after_id s; status_var := status_var s;
     _player_score_var := _player_score_var s;
     _computer_score_var := _computer_score_var s;
     _tie_score_var := _tie_score_var s; window := window s |}.
Definition set_last_gesture v (s : t) : t :=
  {| game := game s; last_gesture := v;
     _gesture_frames := _gesture_frames s; _lockout := _lockout s;
     _lockout_after_id := _lockout_after_id s; status_var := status_var s;
     _player_score_var := _player_score_var s;
     _computer_score_var := _computer_score_var s;
     _tie_score_var := _tie_score_var s; window := window s |}.
Definition set_gesture_frames v (s : t) : t :=
  {| game := game s; last_gesture := last_gesture s;
     _gesture_frames := v; _lockout := _lockout s;
     _lockout_after_id := _lockout_after_id s; status_var := status_var s;
     _player_score_var := _player_score_var s;
     _computer_score_var := _computer_score_var s;
     _tie_score_var := _tie_score_var s; window := window s |}.
Definition set_lockout v (s : t) : t :=
  {| game := game s; last_gesture := last_gesture s;
     _gesture_frames := _gesture_frames s; _lockout := v;
     _lockout_after_id := _lockout_after_id s; status_var := status_var s;
     _player_score_var := _player_score_var s;
     _computer_score_var := _computer_score_var s;
     _tie_score_var := _tie_score_var s; window := window s |}.
Definition set_lockout_after_id v (s : t) : t :=
  {| game := game s; last_gesture := last_gesture s;
     _gesture_frames := _gesture_frames s; _lockout := _lockout s;
     _lockout_after_id := v; status_var := status_var s;
     _player_score_var := _player_score_var s;
     _computer_score_var := _computer_score_var s;
     _tie_score_var := _tie_score_var s; window := window s |}.
Definition set_status v (s : t) : t :=
  {| game := game s; last_gesture := last_gesture s;
     _gesture_frames := _gesture_frames s; _lockout := _lockout s;
     _lockout_after_id := _lockout_after_id s; status_var := v;
     _player_score_var := _player_score_var s;
     _computer_score_var := _computer_score_var s;
     _tie_score_var := _tie_score_var s; window := window s |}.
Definition set_score_vars (p c ti : string) (s : t) : t :=
  {| game := game s; last_gesture := last_gesture s;
     _gesture_frames := _gesture_frames s; _lockout := _lockout s;
     _lockout_after_id := _lockout_after_id s; status_var := status_var s;
     _player_score_var := p; _computer_score_var := c;
     _tie_score_var := ti; window := window s |}.
Definition set_window v (s : t) : t :=
  {| game := game s; last_gesture := last_gesture s;
     _gesture_frames := _gesture_frames s; _lockout := _lockout s;
     _lockout_after_id := _lockout_after_id s; status_var := status_var s;
     _player_score_var := _player_score_var s;
     _computer_score_var := _computer_score_var s;
     _tie_score_var := _tie_score_var s; window := v |}.

(** [self.window.after(ms, cb)], returning the identifier. *)
Definition window_after (ms : Z) (cb : Tk.callback) (s : t) : nat * t :=
  let '(id, w) := Tk.after ms cb (window s) in (id, set_window w s).

Definition _resolve_round (rnd : nat) (player_move : string) (s : t)
  : option t :=
  computer_move ← GestureRPSGame.get_computer_move rnd;
  '(message, game') ← GestureRPSGame.resolve_round (game s) player_move computer_move;
  let s := set_game game' s in
  p ← GestureRPSGame.score (game s) !! "player";
  c ← GestureRPSGame.score (game s) !! "computer";
  ti ← GestureRPSGame.score (game s) !! "ties";
  let s := set_score_vars (Py.str p) (Py.str c) (Py.str ti) s in
  Some (set_status ("You played " ++ player_move ++ ". I played "
                      ++ computer_move ++ "." ++ Py.nl ++ message) s).

Definition _handle_gesture (rnd : nat) (gesture_result : GestureResult) (s : t)
  : option t :=
  let gesture := name gesture_result in
  if decide (gesture = "unknown") then
    let s := set_last_gesture "unknown" s in
    let s := set_gesture_frames 0 s in
    Some (set_status "Waiting for a gesture…" s)
  else
    let s :=
      if decide (gesture = last_gesture s)
      then set_gesture_frames (_gesture_frames s + 1) s
      else set_last_gesture gesture (set_gesture_frames 1 s) in
    if 10 <=? _gesture_frames s then
      let s := set_lockout true s in
      s ← _resolve_round rnd gesture s;
      let s := set_gesture_frames 0 s in
      let s := set_last_gesture "unknown" s in
      let '(id, s) := window_after 1800 Tk.cb_release_lockout s in
      Some (set_lockout_after_id (Some id) s)
    else Some s.

Definition _update_video (i : Tick) (s : t) : option t :=
  if negb (ret i) then
    let s := set_status "Camera feed unavailable." s in
    Some (window_after 500 Tk.cb_update_video s).2
  else
    '(gesture_result, hand_landmarks) ←
      GestureRecognizer.process (multi_hand_landmarks i);
    s ← (if negb (_lockout s)
         then _handle_gesture (rnd i) gesture_result s
         else Some s);
    Some (window_after 30 Tk.cb_update_video s).2.

Definition _release_lockout (s : t) : t :=
  let s := set_lockout false s in
  set_status "Show a gesture to play!" s.

Definition _reset_game (s : t) : t :=
  let s :=
    match _lockout_after_id s with
    | Some id =>
        let s := set_window (Tk.after_cancel id (window s)) s in
        set_lockout_after_id None s
    | None => s
    end in
  let s := set_lockout false s in
  let s := set_last_gesture "unknown" s in
  let s := set_gesture_frames 0 s in
  let s := set_game GestureRPSGame.__init__ s in
  let s := set_score_vars "0" "0" "0" s in
  set_status "Scores cleared. Show a gesture to play!" s.

(** [__init__], once the camera has opened: the attributes are set and
    [_update_video] runs for the first time before the main loop starts. *)
Definition fresh : t :=
  {| game := GestureRPSGame.__init__;
     last_gesture := "unknown";
     _gesture_frames := 0;
     _lockout := false;
     _lockout_after_id := None;
     status_var := "Show a gesture to start!";
     _player_score_var := "0";
     _computer_score_var := "0";
     _tie_score_var := "0";
     window := Tk.create |}.

Definition __init__ (i : Tick) : option t := _update_video i fresh.

(** What the main loop does between two callbacks. *)
Inductive event :=
| Timer (id : nat) (i : Tick)   (* the callback registered under [id] runs *)
| Reset                         (* the Reset button is pressed *)
| Sleep (dt : Z).               (* [dt] milliseconds pass *)

Definition step (e : event) (s : t) : option t :=
  match e with
  | Timer id i =>
      cb ← Tk.due_first id (window s);
      let s := set_window (Tk.take id (window s)) s in
      match cb with
      | Tk.cb_update_video => _update_video i s
      | Tk.cb_release_lockout => Some (_release_lockout s)
      end
  | Reset => Some (_reset_game s)
  | Sleep dt =>
      if 0 <=? dt then Some (set_window (Tk.sleep dt (window s)) s) else None
  end.

Fixpoint run (es : list event) (s : t) : option t :=
  match es with
  | [] => Some s
  | e :: es' => s' ← step e s; run es' s'
  end.

(** A state the running program can be in. *)
Definition reachable (s : t) : Prop :=
  ∃ i es, (s0 ← __init__ i; run es s0) = Some s.

(** Feeding the frames of [is] to [_update_video] one after the other, with
    nothing else happening in between. *)
Fixpoint feed (ticks : list Tick) (s : t) : option t :=
  match ticks with
  | [] => Some s
  | i :: ticks' => s' ← _update_video i s; feed ticks' s'
  end.

End GestureRPSApp.

(** ** Definitions used to state the properties *)

Module Hands.
Import GestureRecognizer.

(** The table of gestures, worded as the specification words it: pencil
    is "only index extended". *)
Definition gesture_table (thumb index middle ring pinky : bool) : string :=
  if negb thumb && negb index && negb middle && negb ring && negb pinky
  then "rock"
  else if thumb && index && middle && ring && pinky then "paper"
  else if negb thumb && index && negb middle && negb ring && negb pinky
  then "pencil"
  else if index && middle && negb ring && negb pinky then "scissors"
  else "unknown".

Definition lm (v : float) : Landmark := {| x := 0.5; y := v; z := 0 |}.

(** Image coordinates grow downwards: an extended fingertip is above
    (smaller [y] than) its knuckle, which [hand_of] puts at 0.5. *)
Definition tip (extended : bool) : Landmark :=
  lm (if extended then 0.25 else 0.75)%float.

(** A hand of 21 landmarks whose fingers are extended as asked. *)
Definition hand_of (thumb index middle ring pinky : bool) : Hand :=
  [ lm 0.5; lm 0.5; lm 0.5; lm 0.5; tip thumb;
    lm 0.5; lm 0.5; lm 0.5; tip index;
    lm 0.5; lm 0.5; lm 0.5; tip middle;
    lm 0.5; lm 0.5; lm 0.5; tip ring;
    lm 0.5; lm 0.5; lm 0.5; tip pinky ]%float.

(** The value of the dict comprehension for given booleans. *)
Definition fingers (thumb index middle ring pinky : bool)
  : list (string * bool) :=
  [ ("thumb", thumb); ("index", index); ("middle", middle);
    ("ring", ring); ("pinky", pinky) ].

End Hands.

Module Rules.

(** The three outcomes of a round of the specification. The program returns
    a message only; each branch of [resolve_round] has its own opening
    words, and [outcome] reads the outcome off them. *)
Inductive Outcome := Tie | PlayerWin | ComputerWin.

Fixpoint starts_with (opening message : string) : bool :=
  match opening, message with
  | EmptyString, _ => true
  | String a opening', String b message' =>
      Ascii.eqb a b && starts_with opening' message'
  | String _ _, EmptyString => false
  end.

Definition outcome (message : string) : option Outcome :=
  if decide (message = "It's a tie!") then Some Tie
  else if starts_with "You win! " message then Some PlayerWin
  else if starts_with "I win! " message then Some ComputerWin
  else None.

(** The win relation, worded as the specification words it. *)
Inductive beats : string → string → Prop :=
| rock_scissors : beats "rock" "scissors"
| rock_pencil : beats "rock" "pencil"
| paper_rock : beats "paper" "rock"
| scissors_paper : beats "scissors" "paper"
| scissors_pencil : beats "scissors" "pencil"
| pencil_paper : beats "pencil" "paper".

#[global] Instance Outcome_eq_dec : EqDecision Outcome.
Proof. solve_decision. Defined.

(** What the counter of [who] gains in a round that ends in [o]. *)
Definition gain (who o : Outcome) : Z := if decide (who = o) then 1 else 0.

(** The number of rounds a score dict records. *)
Definition total (score : gmap string Z) : option Z :=
  p ← score !! "player";
  c ← score !! "computer";
  ti ← score !! "ties";
  Some (p + c + ti).

End Rules.

Module Debounce.
Import GestureRPSApp.

(** The gesture a tick shows to the debouncer, if the camera delivered a
    frame and the recognizer returned. *)
Definition observation (i : Tick) : option string :=
  if ret i then
    '(gesture_result, _) ← GestureRecognizer.process (multi_hand_landmarks i);
    Some (name gesture_result)
  else None.

(** MediaPipe gives every hand its 21 landmarks. *)
Definition well_formed (i : Tick) : Prop :=
  Forall (λ h : GestureRecognizer.Hand, length h = 21%nat)
         (multi_hand_landmarks i).

(** The state of the debouncer: candidate, count, locked. *)
Definition debounce (s : t) : string * Z * bool :=
  (last_gesture s, _gesture_frames s, _lockout s).

(** The count after a recognized gesture, before the threshold is looked
    at. *)
Definition counted (g : string) (s : t) : Z :=
  if decide (g = last_gesture s) then _gesture_frames s + 1 else 1.

(** The rounds resolved so far. *)
Definition rounds (s : t) : option Z :=
  Rules.total (GestureRPSGame.score (game s)).

(** The time at which the release that [_lockout_after_id] names is due,
    while it is pending. *)
Definition cooldown_deadline (s : t) : option Z :=
  id ← _lockout_after_id s;
  '(due, cb) ← Tk.pending (window s) !! id;
  if decide (cb = Tk.cb_release_lockout) then Some due else None.

(** Whether a release of the lock-out is waiting in the [after] queue. *)
Definition release_pending (s : t) : Prop :=
  ∃ id due, Tk.pending (window s) !! id = Some (due, Tk.cb_release_lockout).

(** What holds of every state the program reaches. *)
Record Inv (s : t) : Prop := {
  inv_frames : 0 ≤ _gesture_frames s ≤ 9;
  inv_locked_idle :
    _lockout s = true → last_gesture s = "unknown" ∧ _gesture_frames s = 0;
  inv_counters :
    ∃ p c ti, GestureRPSGame.score (game s) !! "player" = Some p ∧
              GestureRPSGame.score (game s) !! "computer" = Some c ∧
              GestureRPSGame.score (game s) !! "ties" = Some ti ∧
              0 ≤ p ∧ 0 ≤ c ∧ 0 ≤ ti;
  inv_release_named :
    ∀ id due, Tk.pending (window s) !! id = Some (due, Tk.cb_release_lockout) →
              _lockout s = true ∧ _lockout_after_id s = Some id;
  inv_locked_release :
    _lockout s = true →
    ∃ id due, _lockout_after_id s = Some id ∧
              Tk.pending (window s) !! id = Some (due, Tk.cb_release_lockout);
  inv_ids_fresh :
    ∀ id e, Tk.pending (window s) !! id = Some e → (id < Tk.next_id (window s))%nat;
}.

(** Ticks for the examples: a frame showing the given fingers. *)
Definition showing (thumb index middle ring pinky : bool) (rnd : nat) : Tick :=
  {| ret := true;
     multi_hand_landmarks := [Hands.hand_of thumb index middle ring pinky];
     rnd := rnd |}.
Definition rock (rnd : nat) : Tick := showing false false false false false rnd.
Definition paper (rnd : nat) : Tick := showing true true true true true rnd.
Definition no_hand : Tick :=
  {| ret := true; multi_hand_landmarks := []; rnd := 0 |}.

(** Rule 2 of the specification's debouncer, in its words: a locked
    debouncer whose cool-down has elapsed goes to idle and then handles the
    same observation in the same step. *)
Definition lazy_release_step (i : Tick) (s : t) : option t :=
  match cooldown_deadline s with
  | Some due =>
      if _lockout s && (due <=? Tk.now (window s))
      then _update_video i (_release_lockout s)
      else _update_video i s
  | None => _update_video i s
  end.

(** [count] video ticks 30 ms apart that all deliver [i]; the first runs
    the callback registered as [first], and each tick registers the next. *)
Definition frames (i : Tick) (first count : nat) : list event :=
  concat (map (λ id, [Sleep 30; Timer id i]) (seq first count)).

(** A run for the examples: with the frame of [__init__], ten frames of
    rock resolve a round at 270 ms; the release is then due at 2070 ms and
    the next video tick at 300 ms. In [stalled] the main loop is then held
    up until 2100 ms. *)
Definition ten_rocks : list event := frames (rock 1) 0 9.

Definition just_locked : option t :=
  s0 ← __init__ (rock 1); run ten_rocks s0.

Definition stalled : option t :=
  s0 ← __init__ (rock 1); run (ten_rocks ++ [Sleep 1830]) s0.

End Debounce.

Module Tally.
Import GestureRPSGame Rules.

(** Rounds resolved one after the other on the same game object: the
    messages returned, oldest first, and the object after the last call. *)
Fixpoint play (moves : list (string * string)) (self : t)
  : option (list string * t) :=
  match moves with
  | [] => Some ([], self)
  | (player_move, computer_move) :: moves' =>
      '(message, self') ← resolve_round self player_move computer_move;
      '(messages, self'') ← play moves' self';
      Some (message :: messages, self'')
  end.

(** How many of the messages report the outcome [o]. *)
Definition tally (o : Outcome) (messages : list string) : Z :=
  Z.of_nat (length (filter (λ message, outcome message = Some o) messages)).

End Tally.

Module Loop.
Import GestureRPSApp Debounce.

(** The part of the application that decides the rounds: the game, the
    candidate, the count and the lock. *)
Definition core (s : t) : GestureRPSGame.t * string * Z * bool :=
  (game s, last_gesture s, _gesture_frames s, _lockout s).

(** The three score labels. *)
Definition labels (s : t) : string * string * string :=
  (_player_score_var s, _computer_score_var s, _tie_score_var s).

(** The labels show the counters of the game. *)
Definition labels_show_score (s : t) : Prop :=
  ∃ p c ti,
    GestureRPSGame.score (game s) !! "player" = Some p ∧
    GestureRPSGame.score (game s) !! "computer" = Some c ∧
    GestureRPSGame.score (game s) !! "ties" = Some ti ∧
    labels s = (Py.str p, Py.str c, Py.str ti).

(** A video tick is waiting in the [after] queue under [id]. *)
Definition tick_pending (s : t) (id : nat) : Prop :=
  ∃ due, Tk.pending (window s) !! id = Some (due, Tk.cb_update_video).

Definition no_tick (s : t) : Prop := ∀ id, ¬ tick_pending s id.

Definition one_tick (s : t) : Prop :=
  ∃ id, tick_pending s id ∧ ∀ id', tick_pending s id' → id' = id.

(** The callbacks the main loop runs in a list of events. *)
Fixpoint timers (es : list event) : nat :=
  match es with
  | [] => 0
  | Timer _ _ :: es' => S (timers es')
  | _ :: es' => timers es'
  end.

(** What holds between two callbacks, besides [Inv]: the identifier kept in
    [_lockout_after_id] is one [after] has given out and never that of a
    video tick; the labels show the score; the candidate is a move, or it
    is "unknown" and then the count is 0. *)
Record Steady (s : t) : Prop := {
  steady_after_id :
    ∀ id, _lockout_after_id s = Some id →
          (id < Tk.next_id (window s))%nat ∧
          ∀ due cb, Tk.pending (window s) !! id = Some (due, cb) →
                    cb = Tk.cb_release_lockout;
  steady_labels : labels_show_score s;
  steady_candidate :
    (last_gesture s = "unknown" ↔ _gesture_frames s = 0) ∧
    (last_gesture s ∈ GestureRPSGame.MOVES ∨ last_gesture s = "unknown");
}.

(** Runs for the examples: the state in which the tenth frame of rock is
    about to be handled, and a run that goes on from the round it resolves
    to a second round, of paper, through the release of the lock-out. *)
Definition before_round : option t :=
  s ← __init__ (rock 1); run (frames (rock 1) 0 8 ++ [Sleep 30]) s.

Definition next_round : list event :=
  [Sleep 1830; Timer 10 (paper 1); Timer 9 no_hand] ++ frames (paper 1) 11 10.

End Loop.

(** * Properties *)

(** ** The recognizer *)

Section Recognizer.
Import GestureRecognizer Hands.

Lemma is_extended_total (hand : Hand) (tip_idx pip_idx : nat) :
  (tip_idx < length hand)%nat → (pip_idx < length hand)%nat →
  ∃ b, _is_extended hand tip_idx pip_idx = Some b.
Proof.
  intros Ht Hp. unfold _is_extended.
  destruct (lookup_lt_is_Some_2 hand tip_idx Ht) as [a ->].
  destruct (lookup_lt_is_Some_2 hand pip_idx Hp) as [b ->].
  simpl. eauto.
Qed.

(** On a hand of 21 landmarks the comprehension raises nothing and has the
    five fingers, in order. *)
Lemma fingers_extended_total (hand : Hand) :
  length hand = 21%nat →
  ∃ thumb index middle ring pinky,
    fingers_extended hand = Some (fingers thumb index middle ring pinky).
Proof.
  intros Hlen.
  destruct (is_extended_total hand 4 3) as [t Ht]; [lia..|].
  destruct (is_extended_total hand 8 6) as [i Hi]; [lia..|].
  destruct (is_extended_total hand 12 10) as [m Hm]; [lia..|].
  destruct (is_extended_total hand 16 14) as [r Hr]; [lia..|].
  destruct (is_extended_total hand 20 18) as [p Hp]; [lia..|].
  exists t, i, m, r, p. unfold fingers_extended, _FINGER_LANDMARKS. simpl.
  rewrite Ht, Hi, Hm, Hr, Hp. reflexivity.
Qed.

Lemma classify_of_fingers (hand : Hand) (thumb index middle ring pinky : bool) :
  fingers_extended hand = Some (fingers thumb index middle ring pinky) →
  _classify hand = Some (classify_fingers thumb index middle ring pinky).
Proof. intros H. unfold _classify. rewrite H. reflexivity. Qed.

(** Every assignment of the five booleans is the reading of some hand. *)
Lemma hand_of_fingers (thumb index middle ring pinky : bool) :
  length (hand_of thumb index middle ring pinky) = 21%nat ∧
  fingers_extended (hand_of thumb index middle ring pinky)
  = Some (fingers thumb index middle ring pinky).
Proof.
  split; [reflexivity|].
  destruct thumb, index, middle, ring, pinky; vm_compute; reflexivity.
Qed.

End Recognizer.

Section Classifier.
Import GestureRecognizer Hands.

(** C8, as the code has it. For every assignment of the five
    finger-extension booleans, read from a hand by the comprehension of
    [_classify], the classifier returns rock exactly when no finger is
    extended, paper exactly when all five are, pencil exactly when the index
    is extended and middle, ring and pinky are not (the thumb is not looked
    at), scissors exactly when index and middle are extended and ring and
    pinky are not, and unknown exactly in every other case. *)
Theorem classify_by_fingers (hand : Hand) (thumb index middle ring pinky : bool) :
  fingers_extended hand = Some (fingers thumb index middle ring pinky) →
  ∃ g, _classify hand = Some g ∧
    (g = "rock" ↔ thumb = false ∧ index = false ∧ middle = false
                   ∧ ring = false ∧ pinky = false) ∧
    (g = "paper" ↔ thumb = true ∧ index = true ∧ middle = true
                    ∧ ring = true ∧ pinky = true) ∧
    (g = "pencil" ↔ index = true ∧ middle = false ∧ ring = false
                     ∧ pinky = false) ∧
    (g = "scissors" ↔ index = true ∧ middle = true ∧ ring = false
                       ∧ pinky = false) ∧
    (g = "unknown" ↔
       ¬ (thumb = false ∧ index = false ∧ middle = false
          ∧ ring = false ∧ pinky = false) ∧
       ¬ (thumb = true ∧ index = true ∧ middle = true
          ∧ ring = true ∧ pinky = true) ∧
       ¬ (index = true ∧ ring = false ∧ pinky = false)).
Proof.
  intros Hfe. rewrite (classify_of_fingers _ _ _ _ _ _ Hfe).
  eexists; split; [reflexivity|].
  destruct thumb, index, middle, ring, pinky; cbn;
    repeat split; intros; try discriminate; try reflexivity;
    intuition discriminate.
Qed.

Lemma classify_by_fingers_witness :
  ∃ g, _classify (hand_of true true false false false) = Some g ∧
       (g = "pencil" ↔ true = true ∧ false = false ∧ false = false
                        ∧ false = false).
Proof.
  destruct (classify_by_fingers (hand_of true true false false false)
              true true false false false) as (g & Hg & _ & _ & Hpencil & _).
  - vm_compute; reflexivity.
  - exists g. split; [exact Hg | exact Hpencil].
Defined.

(** C8, as the specification words it, fails: with thumb and index extended
    and the three other fingers folded, the table of the specification says
    unknown ("only index extended" does not hold) and the code says
    pencil. *)
Lemma thumb_and_index_is_pencil :
  fingers_extended (hand_of true true false false false)
    = Some (fingers true true false false false) ∧
  _classify (hand_of true true false false false) = Some "pencil" ∧
  classify_fingers true true false false false = "pencil" ∧
  gesture_table true true false false false = "unknown".
Proof. repeat split; vm_compute; reflexivity. Qed.

Lemma float_one_ne_zero : (1.0 ≠ 0.0)%float.
Proof.
  intros H. apply (f_equal (λ v, PrimFloat.eqb v 1.0)) in H.
  vm_compute in H. discriminate.
Qed.

(** [process] raises on no frame whose hands have their 21 landmarks. *)
Lemma process_total (hands : list Hand) :
  Forall (λ h : Hand, length h = 21%nat) hands → is_Some (process hands).
Proof.
  intros Hwf. destruct hands as [|h hands]; [eexists; reflexivity|].
  apply Forall_cons in Hwf as [Hh _].
  destruct (fingers_extended_total h Hh) as (t & i & m & r & p & Hfe).
  simpl. rewrite (classify_of_fingers _ _ _ _ _ _ Hfe). eexists; reflexivity.
Qed.

(** C9. [process] returns on every frame whose hands have their 21
    landmarks, and whenever it returns, the confidence is exactly 0.0 or
    exactly 1.0, and it is 1.0 if and only if the gesture name is not
    "unknown". *)
Theorem process_confidence (hands : list Hand) :
  (Forall (λ h : Hand, length h = 21%nat) hands → is_Some (process hands)) ∧
  (∀ r lms, process hands = Some (r, lms) →
     (confidence r = 0.0%float ∨ confidence r = 1.0%float) ∧
     (confidence r = 1.0%float ↔ name r ≠ "unknown")).
Proof.
  split; [apply process_total|].
  - intros r lms Hp. destruct hands as [|h hands]; simpl in Hp.
    + injection Hp as <- <-. simpl. split; [by left|].
      split; [intros H; symmetry in H; by apply float_one_ne_zero in H | done].
    + destruct (_classify h) as [g|]; simpl in Hp; [|discriminate].
      injection Hp as <- <-. simpl. case_decide as Hg.
      * split; [by right|]. split; done.
      * split; [by left|].
        split; [intros H; symmetry in H; by apply float_one_ne_zero in H | done].
Qed.

Lemma process_confidence_witness :
  is_Some (process [hand_of false true true false false]) ∧
  (1.0%float = 1.0%float ↔ "scissors" ≠ "unknown").
Proof.
  pose proof (process_confidence [hand_of false true true false false])
    as [Htotal Hconf].
  split.
  - apply Htotal. repeat constructor.
  - exact (proj2 (Hconf {| name := "scissors"; confidence := 1.0 |}
                        (Some (hand_of false true true false false))
                        ltac:(vm_compute; reflexivity))).
Defined.

End Classifier.

(** ** The rules and the score *)

Section Game.
Import GestureRPSGame Rules.

Lemma incr_lookup (key : string) (d : gmap string Z) (v : Z) :
  d !! key = Some v → Py.incr key d = Some (<[key := v + 1]> d).
Proof. intros H. unfold Py.incr. rewrite H. reflexivity. Qed.

Lemma win_rules_lookup (a : string) :
  WIN_RULES !! a =
    if decide (a = "rock") then Some {[ "scissors"; "pencil" ]}
    else if decide (a = "paper") then Some {[ "rock" ]}
    else if decide (a = "scissors") then Some {[ "paper"; "pencil" ]}
    else if decide (a = "pencil") then Some {[ "paper" ]}
    else None.
Proof.
  unfold WIN_RULES.
  repeat (case_decide; [subst; by simplify_map_eq|]).
  by simplify_map_eq.
Qed.

(** [WIN_RULES] holds the relation of the specification and nothing else. *)
Lemma win_rules_beats (a b : string) :
  b ∈ default ∅ (WIN_RULES !! a) ↔ beats a b.
Proof.
  rewrite win_rules_lookup. split.
  - repeat case_decide; subst; simpl; set_unfold;
      intros Hb; destruct_or?; subst; try constructor; done.
  - destruct 1; simpl; set_solver.
Qed.

(** The three branches of [resolve_round]. *)
Lemma resolve_round_tie (self : t) (m : string) (ti : Z) :
  score self !! "ties" = Some ti →
  resolve_round self m m
  = Some ("It's a tie!", {| score := <["ties" := ti + 1]> (score self) |}).
Proof.
  intros H. unfold resolve_round. rewrite decide_True by done.
  rewrite (incr_lookup _ _ _ H). reflexivity.
Qed.

Lemma resolve_round_win (self : t) (a b : string) (p : Z) :
  a ≠ b → beats a b → score self !! "player" = Some p →
  resolve_round self a b
  = Some ("You win! " ++ Py.title a ++ " beats " ++ b ++ ".",
          {| score := <["player" := p + 1]> (score self) |}).
Proof.
  intros Hne Hb H. unfold resolve_round. rewrite decide_False by done.
  rewrite decide_True by (by apply win_rules_beats).
  rewrite (incr_lookup _ _ _ H). reflexivity.
Qed.

Lemma resolve_round_loss (self : t) (a b : string) (c : Z) :
  a ≠ b → ¬ beats a b → score self !! "computer" = Some c →
  resolve_round self a b
  = Some ("I win! " ++ Py.title b ++ " beats " ++ a ++ ".",
          {| score := <["computer" := c + 1]> (score self) |}).
Proof.
  intros Hne Hb H. unfold resolve_round. rewrite decide_False by done.
  rewrite decide_False by (by rewrite win_rules_beats).
  rewrite (incr_lookup _ _ _ H). reflexivity.
Qed.

Lemma outcome_tie : outcome "It's a tie!" = Some Tie.
Proof. reflexivity. Qed.

Lemma outcome_win (rest : string) :
  outcome ("You win! " ++ rest) = Some PlayerWin.
Proof. unfold outcome. rewrite decide_False by discriminate. reflexivity. Qed.

Lemma outcome_loss (rest : string) :
  outcome ("I win! " ++ rest) = Some ComputerWin.
Proof. unfold outcome. rewrite decide_False by discriminate. reflexivity. Qed.

Lemma beats_irrefl (a : string) : ¬ beats a a.
Proof. inversion 1. Qed.

Lemma beats_asym (a b : string) : beats a b → ¬ beats b a.
Proof. destruct 1; inversion 1. Qed.

Lemma beats_or_not (a b : string) : beats a b ∨ ¬ beats a b.
Proof.
  destruct (decide (b ∈ default ∅ (WIN_RULES !! a))) as [Hin|Hin];
    rewrite win_rules_beats in Hin; auto.
Qed.

(** Two distinct moves are always ordered by the relation. *)
Lemma beats_covers (a b : string) :
  a ∈ MOVES → b ∈ MOVES → a ≠ b → beats a b ∨ beats b a.
Proof.
  unfold MOVES. intros Ha Hb Hne. set_unfold.
  destruct_or?; subst; try done;
    solve [left; constructor | right; constructor].
Qed.

Lemma beats_moves (a b : string) : beats a b → a ∈ MOVES ∧ b ∈ MOVES.
Proof. unfold MOVES. destruct 1; set_solver. Qed.

(** C2. For every pair of moves, [resolve_round] reports a win of the
    player exactly when the player's move beats the computer's in the
    relation rock > scissors, pencil; paper > rock; scissors > paper, pencil;
    pencil > paper, a win of the computer exactly when the computer's move
    beats the player's, and a tie exactly when neither beats the other,
    which is the case of equal moves. *)
Theorem resolve_round_follows_relation (self : t) (a b : string) (p c ti : Z) :
  a ∈ MOVES → b ∈ MOVES →
  score self !! "player" = Some p →
  score self !! "computer" = Some c →
  score self !! "ties" = Some ti →
  ∃ message self',
    resolve_round self a b = Some (message, self') ∧
    (outcome message = Some PlayerWin ↔ beats a b) ∧
    (outcome message = Some ComputerWin ↔ beats b a) ∧
    (outcome message = Some Tie ↔ ¬ beats a b ∧ ¬ beats b a) ∧
    (outcome message = Some Tie ↔ a = b).
Proof.
  intros Ha Hb Hp Hc Hti.
  destruct (decide (a = b)) as [->|Hne].
  - do 2 eexists. split; [by apply resolve_round_tie|].
    rewrite outcome_tie. pose proof (beats_irrefl b). intuition congruence.
  - destruct (beats_or_not a b) as [Hab|Hab].
    + do 2 eexists. split; [by apply resolve_round_win|].
      rewrite outcome_win. pose proof (beats_asym _ _ Hab).
      intuition congruence.
    + do 2 eexists. split; [by apply resolve_round_loss|].
      rewrite outcome_loss.
      destruct (beats_covers a b Ha Hb Hne); intuition congruence.
Qed.

Lemma resolve_round_follows_relation_witness :
  ∃ message self',
    resolve_round __init__ "pencil" "paper" = Some (message, self') ∧
    (outcome message = Some PlayerWin ↔ beats "pencil" "paper").
Proof.
  destruct (resolve_round_follows_relation __init__ "pencil" "paper" 0 0 0)
    as (message & self' & Hr & Hwin & _);
    [unfold MOVES; repeat constructor.. | reflexivity | reflexivity | reflexivity |].
  exists message, self'. split; [exact Hr | exact Hwin].
Defined.

(** C5. For every pair of moves (of strings, even), one call of
    [resolve_round] produces one of the three outcomes, adds 1 to the
    counter of that outcome and leaves the two other counters as they were:
    the three counters together grow by exactly 1. *)
Theorem resolve_round_one_increment (self : t) (a b : string) (p c ti : Z) :
  score self !! "player" = Some p →
  score self !! "computer" = Some c →
  score self !! "ties" = Some ti →
  ∃ message self' o,
    resolve_round self a b = Some (message, self') ∧
    outcome message = Some o ∧
    score self' !! "player" = Some (p + gain PlayerWin o) ∧
    score self' !! "computer" = Some (c + gain ComputerWin o) ∧
    score self' !! "ties" = Some (ti + gain Tie o) ∧
    gain PlayerWin o + gain ComputerWin o + gain Tie o = 1 ∧
    total (score self') = Some (p + c + ti + 1).
Proof.
  intros Hp Hc Hti.
  destruct (decide (a = b)) as [->|Hne]; [|destruct (beats_or_not a b)].
  - exists "It's a tie!", {| score := <["ties" := ti + 1]> (score self) |}, Tie.
    split; [by apply resolve_round_tie|]. unfold total, gain. simpl.
    simplify_map_eq. repeat split; try done; f_equal; lia.
  - eexists _, {| score := <["player" := p + 1]> (score self) |}, PlayerWin.
    split; [by apply resolve_round_win|]. rewrite outcome_win.
    unfold total, gain. simpl. simplify_map_eq.
    repeat split; try done; f_equal; lia.
  - eexists _, {| score := <["computer" := c + 1]> (score self) |}, ComputerWin.
    split; [by apply resolve_round_loss|]. rewrite outcome_loss.
    unfold total, gain. simpl. simplify_map_eq.
    repeat split; try done; f_equal; lia.
Qed.

Lemma resolve_round_one_increment_witness :
  ∃ message self' o,
    resolve_round __init__ "rock" "paper" = Some (message, self') ∧
    outcome message = Some o ∧
    total (score self') = Some (0 + 0 + 0 + 1).
Proof.
  destruct (resolve_round_one_increment __init__ "rock" "paper" 0 0 0)
    as (message & self' & o & Hr & Ho & _ & _ & _ & _ & Htot); [reflexivity..|].
  exists message, self', o. auto.
Defined.

(** C6. For every move [m] (every string, even), [resolve_round m m] is a
    tie, adds 1 to the ties counter and leaves the player's and the
    computer's counters, and any other key, unchanged. *)
Theorem resolve_round_same_move (self : t) (m : string) (ti : Z) :
  score self !! "ties" = Some ti →
  ∃ self',
    resolve_round self m m = Some ("It's a tie!", self') ∧
    outcome "It's a tie!" = Some Tie ∧
    score self' !! "ties" = Some (ti + 1) ∧
    score self' !! "player" = score self !! "player" ∧
    score self' !! "computer" = score self !! "computer" ∧
    (∀ key, key ≠ "ties" → score self' !! key = score self !! key).
Proof.
  intros Hti. exists {| score := <["ties" := ti + 1]> (score self) |}.
  split; [by apply resolve_round_tie|]. simpl.
  repeat split; try done; intros; by simplify_map_eq.
Qed.

Lemma resolve_round_same_move_witness :
  ∃ self',
    resolve_round __init__ "scissors" "scissors" = Some ("It's a tie!", self') ∧
    score self' !! "ties" = Some (0 + 1).
Proof.
  destruct (resolve_round_same_move __init__ "scissors" 0)
    as (self' & Hr & _ & Hti & _); [reflexivity|].
  exists self'. auto.
Defined.

(** [resolve_round] raises for no pair of strings. *)
Lemma resolve_round_total (self : t) (p c ti : Z) :
  score self !! "player" = Some p →
  score self !! "computer" = Some c →
  score self !! "ties" = Some ti →
  ∀ a b, is_Some (resolve_round self a b).
Proof.
  intros Hp Hc Hti a b.
  destruct (decide (a = b)) as [->|Hne]; [|destruct (beats_or_not a b)].
  - eexists. by apply resolve_round_tie.
  - eexists. by apply resolve_round_win.
  - eexists. by apply resolve_round_loss.
Qed.

(** C10. [resolve_round] raises for no pair of strings, and for a player
    move outside the four moves and a computer move different from it, the
    lookup in [WIN_RULES] finds nothing, the empty set stands in, the
    computer is reported as the winner and the computer's counter alone
    grows by 1. The message is "I win! ", the computer's move as
    [str.title()] writes it, " beats ", the player's move and a full stop;
    what [str.title()] makes of a string that is not ASCII is left open. *)
Theorem resolve_round_foreign_move (self : t) (p c ti : Z) :
  score self !! "player" = Some p →
  score self !! "computer" = Some c →
  score self !! "ties" = Some ti →
  (∀ a b, is_Some (resolve_round self a b)) ∧
  (∀ player_move computer_move,
     player_move ∉ MOVES → computer_move ≠ player_move →
     WIN_RULES !! player_move = None ∧
     ∃ titled self',
       resolve_round self player_move computer_move
       = Some ("I win! " ++ titled ++ " beats " ++ player_move ++ ".", self') ∧
       outcome ("I win! " ++ titled ++ " beats " ++ player_move ++ ".")
       = Some ComputerWin ∧
       score self' !! "computer" = Some (c + 1) ∧
       score self' !! "player" = Some p ∧
       score self' !! "ties" = Some ti).
Proof.
  intros Hp Hc Hti. split.
  - by eapply resolve_round_total.
  - intros pm cm Hpm Hne. split.
    + rewrite win_rules_lookup. unfold MOVES in Hpm.
      repeat (case_decide; [subst; set_solver|]). done.
    + exists (Py.title cm),
        {| score := <["computer" := c + 1]> (score self) |}.
      split.
      * apply resolve_round_loss; [done| |done].
        intros Hb. by apply beats_moves in Hb as [? _].
      * rewrite outcome_loss. simpl. by simplify_map_eq.
Qed.

Lemma resolve_round_foreign_move_witness :
  is_Some (resolve_round __init__ "lizard" "rock") ∧
  WIN_RULES !! "lizard" = None.
Proof.
  destruct (resolve_round_foreign_move __init__ 0 0 0) as [Hsome Hforeign];
    [reflexivity..|].
  split; [apply Hsome|].
  apply (Hforeign "lizard" "rock"); [|discriminate].
  apply (bool_decide_unpack _). vm_compute. exact I.
Defined.

End Game.

(** ** The debouncer and the lock-out *)

Section App.
Import GestureRPSApp Debounce.

Lemma observation_Some (i : Tick) (g : string) :
  observation i = Some g →
  ret i = true ∧
  ∃ r lms, GestureRecognizer.process (multi_hand_landmarks i) = Some (r, lms)
           ∧ name r = g.
Proof.
  unfold observation. destruct (ret i); [|done].
  destruct (GestureRecognizer.process _) as [[r lms]|]; [|done].
  simpl. intros [= <-]. eauto.
Qed.

Lemma process_well_formed (i : Tick) :
  well_formed i → is_Some (GestureRecognizer.process (multi_hand_landmarks i)).
Proof. apply process_total. Qed.

(** The scenario of the specification, run by the main loop: ten frames
    of rock resolve one round; ten more within the cool-down resolve none;
    once the release has run, ten frames of paper resolve exactly one more,
    with paper. The draw 1 makes the computer play paper. *)
Example scenario_rock_rock_paper :
  (s0 ← __init__ (rock 1);
   s1 ← run (frames (rock 1) 0 9) s0;
   s2 ← run (frames (rock 1) 10 10) s1;
   s3 ← run [Sleep 1500; Timer 20 (rock 1); Timer 9 no_hand] s2;
   s4 ← run (frames (paper 1) 21 10) s3;
   Some (rounds s1, debounce s1, rounds s2, debounce s2, debounce s3,
         rounds s4, debounce s4, status_var s4))
  = Some (Some 1, ("unknown", 0, true), Some 1, ("unknown", 0, true),
          ("unknown", 0, false), Some 2, ("unknown", 0, true),
          "You played paper. I played paper." ++ Py.nl ++ "It's a tie!").
Proof. vm_compute. reflexivity. Qed.

Example title_rock : Py.title "rock" = "Rock".
Proof. reflexivity. Qed.

Lemma get_computer_move_total (rnd : nat) :
  ∃ cm, GestureRPSGame.get_computer_move rnd = Some cm
        ∧ cm ∈ GestureRPSGame.MOVES.
Proof.
  unfold GestureRPSGame.get_computer_move, Py.choice.
  destruct (lookup_lt_is_Some_2 GestureRPSGame.MOVES
              (rnd `mod` length GestureRPSGame.MOVES)%nat) as [cm Hcm].
  - apply Nat.mod_upper_bound. discriminate.
  - exists cm. split; [done|]. by eapply list_elem_of_lookup_2.
Qed.

(** [resolve_round] keeps the three counters and adds one round. *)
Lemma resolve_round_counters (self self' : GestureRPSGame.t)
    (a b message : string) (p c ti : Z) :
  GestureRPSGame.score self !! "player" = Some p →
  GestureRPSGame.score self !! "computer" = Some c →
  GestureRPSGame.score self !! "ties" = Some ti →
  GestureRPSGame.resolve_round self a b = Some (message, self') →
  ∃ p' c' ti',
    GestureRPSGame.score self' !! "player" = Some p' ∧
    GestureRPSGame.score self' !! "computer" = Some c' ∧
    GestureRPSGame.score self' !! "ties" = Some ti' ∧
    p ≤ p' ∧ c ≤ c' ∧ ti ≤ ti' ∧ p' + c' + ti' = p + c + ti + 1.
Proof.
  intros Hp Hc Hti Hr.
  destruct (decide (a = b)) as [->|Hne]; [|destruct (beats_or_not a b)].
  - rewrite (resolve_round_tie _ _ _ Hti) in Hr. injection Hr as _ <-.
    exists p, c, (ti + 1). simpl. simplify_map_eq.
    repeat split; try done; lia.
  - rewrite (resolve_round_win _ _ _ _ Hne) in Hr by done.
    injection Hr as _ <-.
    exists (p + 1), c, ti. simpl. simplify_map_eq.
    repeat split; try done; lia.
  - rewrite (resolve_round_loss _ _ _ _ Hne) in Hr by done.
    injection Hr as _ <-.
    exists p, (c + 1), ti. simpl. simplify_map_eq.
    repeat split; try done; lia.
Qed.

(** [_resolve_round] on a game that has its counters: it returns, the game
    is the one [resolve_round] leaves, and the labels show its counters. *)
Lemma app_resolve_round (rnd : nat) (g : string) (s : t) (p c ti : Z) :
  GestureRPSGame.score (game s) !! "player" = Some p →
  GestureRPSGame.score (game s) !! "computer" = Some c →
  GestureRPSGame.score (game s) !! "ties" = Some ti →
  ∃ cm message game' p' c' ti',
    GestureRPSGame.get_computer_move rnd = Some cm ∧
    GestureRPSGame.resolve_round (game s) g cm = Some (message, game') ∧
    GestureRPSGame.score game' !! "player" = Some p' ∧
    GestureRPSGame.score game' !! "computer" = Some c' ∧
    GestureRPSGame.score game' !! "ties" = Some ti' ∧
    p ≤ p' ∧ c ≤ c' ∧ ti ≤ ti' ∧ p' + c' + ti' = p + c + ti + 1 ∧
    _resolve_round rnd g s
    = Some (set_status ("You played " ++ g ++ ". I played " ++ cm ++ "."
                          ++ Py.nl ++ message)
              (set_score_vars (Py.str p') (Py.str c') (Py.str ti')
                 (set_game game' s))).
Proof.
  intros Hp Hc Hti.
  destruct (get_computer_move_total rnd) as (cm & Hcm & _).
  destruct (resolve_round_total (game s) p c ti Hp Hc Hti g cm)
    as [[message game'] Hr].
  destruct (resolve_round_counters _ _ _ _ _ _ _ _ Hp Hc Hti Hr)
    as (p' & c' & ti' & Hp' & Hc' & Hti' & Hle).
  exists cm, message, game', p', c', ti'.
  repeat (split; [done || lia|]).
  unfold _resolve_round. rewrite Hcm. simpl. rewrite Hr. simpl.
  rewrite Hp'. simpl. rewrite Hc'. simpl. rewrite Hti'. reflexivity.
Qed.

Lemma handle_gesture_unknown (rnd : nat) (r : GestureResult) (s : t) :
  name r = "unknown" →
  _handle_gesture rnd r s
  = Some (set_status "Waiting for a gesture…"
            (set_gesture_frames 0 (set_last_gesture "unknown" s))).
Proof. intros H. unfold _handle_gesture. rewrite decide_True by done. done. Qed.

Lemma accumulate_counted (g : string) (s : t) :
  (if decide (g = last_gesture s)
   then set_gesture_frames (_gesture_frames s + 1) s
   else set_last_gesture g (set_gesture_frames 1 s))
  = set_last_gesture g (set_gesture_frames (counted g s) s).
Proof. unfold counted. destruct s; simpl. case_decide; by subst. Qed.

Lemma handle_gesture_accumulate (rnd : nat) (r : GestureResult) (s : t) :
  name r ≠ "unknown" → counted (name r) s < 10 →
  _handle_gesture rnd r s
  = Some (set_last_gesture (name r) (set_gesture_frames (counted (name r) s) s)).
Proof.
  intros Hr Hn. unfold _handle_gesture.
  rewrite decide_False by done. rewrite (accumulate_counted (name r) s).
  simpl _gesture_frames. by rewrite (proj2 (Z.leb_gt _ _)) by lia.
Qed.

Lemma handle_gesture_commit (rnd : nat) (r : GestureResult) (s : t) (p c ti : Z) :
  name r ≠ "unknown" → 10 ≤ counted (name r) s →
  GestureRPSGame.score (game s) !! "player" = Some p →
  GestureRPSGame.score (game s) !! "computer" = Some c →
  GestureRPSGame.score (game s) !! "ties" = Some ti →
  ∃ cm message game' p' c' ti' s',
    GestureRPSGame.get_computer_move rnd = Some cm ∧
    GestureRPSGame.resolve_round (game s) (name r) cm = Some (message, game') ∧
    GestureRPSGame.score game' !! "player" = Some p' ∧
    GestureRPSGame.score game' !! "computer" = Some c' ∧
    GestureRPSGame.score game' !! "ties" = Some ti' ∧
    p ≤ p' ∧ c ≤ c' ∧ ti ≤ ti' ∧ p' + c' + ti' = p + c + ti + 1 ∧
    _handle_gesture rnd r s = Some s' ∧
    game s' = game' ∧
    last_gesture s' = "unknown" ∧ _gesture_frames s' = 0 ∧ _lockout s' = true ∧
    _lockout_after_id s' = Some (Tk.next_id (window s)) ∧
    window s' = (Tk.after 1800 Tk.cb_release_lockout (window s)).2 ∧
    status_var s' = "You played " ++ name r ++ ". I played " ++ cm ++ "."
                      ++ Py.nl ++ message.
Proof.
  intros Hr Hn Hp Hc Hti.
  set (s1 := set_lockout true
               (set_last_gesture (name r)
                  (set_gesture_frames (counted (name r) s) s))).
  destruct (app_resolve_round rnd (name r) s1 p c ti Hp Hc Hti)
    as (cm & message & game' & p' & c' & ti' & Hcm & Hres & Hp' & Hc' & Hti'
        & Hlep & Hlec & Hleti & Hsum & Happ).
  exists cm, message, game', p', c', ti'. eexists.
  repeat (split; [done|]).
  split.
  - unfold _handle_gesture. rewrite decide_False by done.
    rewrite (accumulate_counted (name r) s). simpl _gesture_frames.
    rewrite (proj2 (Z.leb_le _ _)) by done.
    fold s1. rewrite Happ. reflexivity.
  - repeat split; reflexivity.
Qed.

(** [_update_video] on a tick that shows a gesture: the lock-out gate, then
    the next tick is scheduled. *)
Lemma update_video_observation (i : Tick) (s : t) (g : string) :
  observation i = Some g →
  ∃ r, name r = g ∧
    _update_video i s
    = (s' ← (if negb (_lockout s) then _handle_gesture (rnd i) r s else Some s);
       Some (window_after 30 Tk.cb_update_video s').2).
Proof.
  intros (Hret & r & lms & Hproc & Hname)%observation_Some.
  exists r. split; [done|].
  unfold _update_video. rewrite Hret, Hproc. reflexivity.
Qed.

Lemma update_video_accumulate (i : Tick) (s : t) (g : string) :
  observation i = Some g → g ≠ "unknown" → _lockout s = false →
  counted g s < 10 →
  ∃ s', _update_video i s = Some s' ∧
        last_gesture s' = g ∧ _gesture_frames s' = counted g s ∧
        _lockout s' = false ∧ game s' = game s ∧
        _lockout_after_id s' = _lockout_after_id s ∧
        status_var s' = status_var s.
Proof.
  intros Hobs Hg Hlock Hn.
  destruct (update_video_observation i s g Hobs) as (r & <- & ->).
  rewrite Hlock. simpl negb. cbv iota.
  rewrite handle_gesture_accumulate by done.
  eexists. split; [reflexivity|]. by repeat split.
Qed.

Lemma update_video_unknown (i : Tick) (s : t) :
  observation i = Some "unknown" → _lockout s = false →
  ∃ s', _update_video i s = Some s' ∧
        last_gesture s' = "unknown" ∧ _gesture_frames s' = 0 ∧
        _lockout s' = false ∧ game s' = game s ∧
        _lockout_after_id s' = _lockout_after_id s ∧
        status_var s' = "Waiting for a gesture…".
Proof.
  intros Hobs Hlock.
  destruct (update_video_observation i s _ Hobs) as (r & Hr & ->).
  rewrite Hlock. simpl negb. cbv iota.
  rewrite handle_gesture_unknown by done.
  eexists. split; [reflexivity|]. by repeat split.
Qed.

Lemma update_video_commit (i : Tick) (s : t) (g : string) (p c ti : Z) :
  observation i = Some g → g ≠ "unknown" → _lockout s = false →
  10 ≤ counted g s →
  GestureRPSGame.score (game s) !! "player" = Some p →
  GestureRPSGame.score (game s) !! "computer" = Some c →
  GestureRPSGame.score (game s) !! "ties" = Some ti →
  ∃ cm message game' p' c' ti' s',
    GestureRPSGame.get_computer_move (rnd i) = Some cm ∧
    GestureRPSGame.resolve_round (game s) g cm = Some (message, game') ∧
    GestureRPSGame.score game' !! "player" = Some p' ∧
    GestureRPSGame.score game' !! "computer" = Some c' ∧
    GestureRPSGame.score game' !! "ties" = Some ti' ∧
    p ≤ p' ∧ c ≤ c' ∧ ti ≤ ti' ∧ p' + c' + ti' = p + c + ti + 1 ∧
    _update_video i s = Some s' ∧
    game s' = game' ∧
    last_gesture s' = "unknown" ∧ _gesture_frames s' = 0 ∧ _lockout s' = true ∧
    _lockout_after_id s' = Some (Tk.next_id (window s)) ∧
    window s' = (Tk.after 30 Tk.cb_update_video
                   (Tk.after 1800 Tk.cb_release_lockout (window s)).2).2 ∧
    status_var s' = "You played " ++ g ++ ". I played " ++ cm ++ "."
                      ++ Py.nl ++ message.
Proof.
  intros Hobs Hg Hlock Hn Hp Hc Hti.
  destruct (update_video_observation i s g Hobs) as (r & <- & ->).
  destruct (handle_gesture_commit (rnd i) r s p c ti Hg Hn Hp Hc Hti)
    as (cm & message & game' & p' & c' & ti' & s' & Hcm & Hres & Hp' & Hc' & Hti'
        & Hlep & Hlec & Hleti & Hsum & Hh & Hgame & Hlast & Hfr & Hlk & Hid
        & Hw & Hst).
  exists cm, message, game', p', c', ti'. eexists.
  repeat (split; [done|]).
  rewrite Hlock. simpl negb. cbv iota. rewrite Hh.
  split; [reflexivity|]. simpl. rewrite Hw. by repeat split.
Qed.

(** While the lock-out flag is set, a tick touches neither the debouncer nor
    the game, whatever the frame shows, and also when the camera fails; it
    only schedules the next tick. *)
Lemma update_video_locked (i : Tick) (s : t) :
  well_formed i → _lockout s = true →
  ∃ s', _update_video i s = Some s' ∧
        debounce s' = debounce s ∧ game s' = game s ∧
        _lockout_after_id s' = _lockout_after_id s ∧
        _player_score_var s' = _player_score_var s ∧
        _computer_score_var s' = _computer_score_var s ∧
        _tie_score_var s' = _tie_score_var s ∧
        window s' = (Tk.after (if ret i then 30 else 500)
                       Tk.cb_update_video (window s)).2.
Proof.
  intros Hwf Hlock. unfold _update_video.
  destruct (ret i); simpl negb; cbv iota.
  - destruct (process_well_formed i Hwf) as [[r lms] ->].
    rewrite Hlock. eexists. split; [reflexivity|]. by repeat split.
  - eexists. split; [reflexivity|]. by repeat split.
Qed.

Lemma feed_app (ticks1 ticks2 : list Tick) (s : t) :
  feed (ticks1 ++ ticks2) s = (s' ← feed ticks1 s; feed ticks2 s').
Proof.
  revert s. induction ticks1 as [|i ticks1 IH]; intros s; [done|].
  simpl. destruct (_update_video i s); simpl; [apply IH | done].
Qed.

(** More frames of the candidate gesture, below the threshold: the count
    goes up by one per frame and nothing else moves. *)
Lemma feed_accumulate (ticks : list Tick) (s : t) (g : string) :
  g ≠ "unknown" → _lockout s = false → last_gesture s = g →
  Forall (λ i, observation i = Some g) ticks →
  _gesture_frames s + Z.of_nat (length ticks) < 10 →
  ∃ s', feed ticks s = Some s' ∧
        last_gesture s' = g ∧
        _gesture_frames s' = _gesture_frames s + Z.of_nat (length ticks) ∧
        _lockout s' = false ∧ game s' = game s ∧
        _lockout_after_id s' = _lockout_after_id s ∧
        status_var s' = status_var s.
Proof.
  intros Hg. revert s.
  induction ticks as [|i ticks IH]; intros s Hlock Hlast Hobs Hn.
  - exists s. simpl. repeat split; try done. lia.
  - apply Forall_cons in Hobs as [Hi Hobs]. simpl length in Hn.
    assert (Hcount : counted g s = _gesture_frames s + 1).
    { unfold counted. by rewrite decide_True. }
    destruct (update_video_accumulate i s g Hi Hg Hlock)
      as (s1 & Hs1 & Hlast1 & Hfr1 & Hlock1 & Hgame1 & Hid1 & Hst1); [lia|].
    destruct (IH s1 Hlock1 Hlast1 Hobs)
      as (s' & Hs' & Hlast' & Hfr' & Hlock' & Hgame' & Hid' & Hst'); [lia|].
    exists s'. simpl. rewrite Hs1. simpl.
    repeat split; try congruence. simpl length. lia.
Qed.

(** Frames of a gesture that is not the candidate, the first of which makes
    it the candidate with count 1. *)
Lemma feed_fresh (ticks : list Tick) (s : t) (g : string) :
  g ≠ "unknown" → _lockout s = false → last_gesture s ≠ g →
  Forall (λ i, observation i = Some g) ticks →
  (0 < length ticks < 10)%nat →
  ∃ s', feed ticks s = Some s' ∧
        last_gesture s' = g ∧ _gesture_frames s' = Z.of_nat (length ticks) ∧
        _lockout s' = false ∧ game s' = game s ∧
        _lockout_after_id s' = _lockout_after_id s ∧
        status_var s' = status_var s.
Proof.
  intros Hg Hlock Hlast Hobs Hn.
  destruct ticks as [|i ticks]; [simpl in Hn; lia|].
  apply Forall_cons in Hobs as [Hi Hobs]. simpl length in Hn.
  assert (Hcount : counted g s = 1).
  { unfold counted. by rewrite decide_False. }
  destruct (update_video_accumulate i s g Hi Hg Hlock)
    as (s1 & Hs1 & Hlast1 & Hfr1 & Hlock1 & Hgame1 & Hid1 & Hst1); [lia|].
  destruct (feed_accumulate ticks s1 g Hg Hlock1 Hlast1 Hobs)
    as (s' & Hs' & Hlast' & Hfr' & Hlock' & Hgame' & Hid' & Hst'); [lia|].
  exists s'. simpl. rewrite Hs1. simpl.
  repeat split; try congruence. simpl length. lia.
Qed.

(** C1. The threshold is the literal 10 of [_handle_gesture]. Take a
    debouncer that is not locked and whose candidate is not the gesture [g]
    (an idle debouncer, for one), and feed it 9 frames that show [g], a
    recognized gesture. If the next frame shows no gesture, no round is
    resolved: the game is untouched, the candidate is cleared and the count
    is 0. If the next frame shows [g] again, exactly one round is resolved,
    with [g] as the player's move: the game is the one a single call of
    [resolve_round] on [g] leaves, the score counts one round more, and the
    debouncer is locked. *)
Theorem debounce_threshold (s : t) (g : string) (ticks : list Tick) (p c ti : Z) :
  _lockout s = false → g ≠ "unknown" → last_gesture s ≠ g →
  GestureRPSGame.score (game s) !! "player" = Some p →
  GestureRPSGame.score (game s) !! "computer" = Some c →
  GestureRPSGame.score (game s) !! "ties" = Some ti →
  length ticks = 9%nat → Forall (λ i, observation i = Some g) ticks →
  (∀ u, observation u = Some "unknown" →
     ∃ s', feed (ticks ++ [u]) s = Some s' ∧
           game s' = game s ∧ rounds s' = Some (p + c + ti) ∧
           last_gesture s' = "unknown" ∧ _gesture_frames s' = 0 ∧
           _lockout s' = false) ∧
  (∀ k, observation k = Some g →
     ∃ cm message game' s',
       GestureRPSGame.get_computer_move (rnd k) = Some cm ∧
       GestureRPSGame.resolve_round (game s) g cm = Some (message, game') ∧
       feed (ticks ++ [k]) s = Some s' ∧
       game s' = game' ∧ rounds s' = Some (p + c + ti + 1) ∧
       status_var s' = "You played " ++ g ++ ". I played " ++ cm ++ "."
                         ++ Py.nl ++ message ∧
       last_gesture s' = "unknown" ∧ _gesture_frames s' = 0 ∧
       _lockout s' = true).
Proof.
  intros Hlock Hg Hlast Hp Hc Hti Hlen Hobs.
  destruct (feed_fresh ticks s g Hg Hlock Hlast Hobs)
    as (s9 & Hs9 & Hlast9 & Hfr9 & Hlock9 & Hgame9 & Hid9 & Hst9); [lia|].
  rewrite Hlen in Hfr9. split.
  - intros u Hu.
    destruct (update_video_unknown u s9 Hu Hlock9)
      as (s' & Hs' & Hlast' & Hfr' & Hlock' & Hgame' & _).
    exists s'. rewrite feed_app, Hs9. simpl. rewrite Hs'. simpl.
    repeat split; try congruence.
    unfold rounds, Rules.total. rewrite Hgame', Hgame9, Hp, Hc, Hti. done.
  - intros k Hk.
    assert (Hcount : counted g s9 = 10).
    { unfold counted. rewrite decide_True by done. lia. }
    rewrite <- Hgame9 in Hp, Hc, Hti.
    destruct (update_video_commit k s9 g p c ti Hk Hg Hlock9) as
      (cm & message & game' & p' & c' & ti' & s' & Hcm & Hres & Hp' & Hc' & Hti'
       & _ & _ & _ & Hsum & Hs' & Hgame' & Hlast' & Hfr' & Hlock' & _ & _ & Hst');
      [lia|done..|].
    exists cm, message, game', s'.
    rewrite feed_app, Hs9. simpl. rewrite Hs'. simpl.
    rewrite <- Hgame9. repeat split; try done.
    unfold rounds, Rules.total. rewrite Hgame', Hp', Hc', Hti'. simpl.
    f_equal. lia.
Qed.

Lemma debounce_threshold_witness :
  (∃ s', feed (replicate 9 (rock 2) ++ [no_hand]) fresh = Some s' ∧
         rounds s' = Some (0 + 0 + 0)) ∧
  (∃ s', feed (replicate 9 (rock 2) ++ [rock 2]) fresh = Some s' ∧
         rounds s' = Some (0 + 0 + 0 + 1)).
Proof.
  destruct (debounce_threshold fresh "rock" (replicate 9 (rock 2)) 0 0 0)
    as [Hunknown Hcommit];
    [reflexivity | discriminate | discriminate | reflexivity | reflexivity
    | reflexivity | reflexivity | repeat constructor |].
  split.
  - destruct (Hunknown no_hand) as (s' & Hs' & _ & Hr & _); [reflexivity|].
    exists s'. split; [exact Hs' | exact Hr].
  - destruct (Hcommit (rock 2)) as (cm & m & g' & s' & _ & _ & Hs' & _ & Hr & _);
      [reflexivity|].
    exists s'. split; [exact Hs' | exact Hr].
Defined.

(** *** The invariant of the reachable states *)

(** [Inv] looks at the game, the debouncer, the identifier of the release
    and the [after] queue only. *)
Lemma inv_ext (s s' : t) :
  game s' = game s → last_gesture s' = last_gesture s →
  _gesture_frames s' = _gesture_frames s → _lockout s' = _lockout s →
  _lockout_after_id s' = _lockout_after_id s → window s' = window s →
  Inv s → Inv s'.
Proof.
  intros Hg Hl Hf Hk Hid Hw [].
  split; rewrite ?Hg, ?Hl, ?Hf, ?Hk, ?Hid, ?Hw; done.
Qed.

Lemma inv_fresh : Inv fresh.
Proof.
  split; simpl; try done.
  exists 0, 0, 0. repeat split; done.
Qed.

(** Scheduling a video tick keeps the invariant. *)
Lemma inv_schedule_tick (ms : Z) (s : t) :
  Inv s → Inv (window_after ms Tk.cb_update_video s).2.
Proof.
  intros [Hfr Hidle Hcnt Hnamed Hrel Hfresh]. split; simpl; try done.
  - intros id due [[_ [=]]|[_ Hpend]]%lookup_insert_Some. by eapply Hnamed.
  - intros Hlock. destruct (Hrel Hlock) as (id & due & Hid & Hpend).
    exists id, due. split; [done|].
    rewrite lookup_insert_ne; [done|]. apply Hfresh in Hpend. lia.
  - intros id e [[<- _]|[_ Hpend]]%lookup_insert_Some; [lia|].
    apply Hfresh in Hpend. lia.
Qed.

(** A round that is resolved while no release is pending keeps it. *)
Lemma inv_commit (s s' : t) (p' c' ti' : Z) :
  Inv s → _lockout s = false →
  GestureRPSGame.score (game s') !! "player" = Some p' →
  GestureRPSGame.score (game s') !! "computer" = Some c' →
  GestureRPSGame.score (game s') !! "ties" = Some ti' →
  0 ≤ p' → 0 ≤ c' → 0 ≤ ti' →
  last_gesture s' = "unknown" → _gesture_frames s' = 0 → _lockout s' = true →
  _lockout_after_id s' = Some (Tk.next_id (window s)) →
  window s' = (Tk.after 1800 Tk.cb_release_lockout (window s)).2 →
  Inv s'.
Proof.
  intros [Hfr Hidle Hcnt Hnamed Hrel Hfresh] Hlock Hp Hc Hti Hp0 Hc0 Hti0
         Hl Hf Hk Hid Hw.
  split; rewrite ?Hl, ?Hf, ?Hk, ?Hid, ?Hw; simpl; try done.
  - exists p', c', ti'. by repeat split.
  - intros id due [[<- _]|[_ Hpend]]%lookup_insert_Some; [done|].
    apply Hnamed in Hpend as [Hpend _]. congruence.
  - intros _. exists (Tk.next_id (window s)), (Tk.now (window s) + 1800).
    split; [done|]. apply lookup_insert_eq.
  - intros id e [[<- _]|[_ Hpend]]%lookup_insert_Some; [lia|].
    apply Hfresh in Hpend. lia.
Qed.

Lemma inv_handle_gesture (rnd : nat) (r : GestureResult) (s s' : t) :
  Inv s → _lockout s = false → _handle_gesture rnd r s = Some s' → Inv s'.
Proof.
  intros HI Hlock Hh.
  destruct (decide (name r = "unknown")) as [Hu|Hu].
  { rewrite handle_gesture_unknown in Hh by done. injection Hh as <-.
    destruct HI. split; simpl; try done; congruence. }
  destruct (decide (counted (name r) s < 10)) as [Hn|Hn].
  { rewrite handle_gesture_accumulate in Hh by done. injection Hh as <-.
    pose proof (inv_frames _ HI) as Hfr.
    destruct HI. split; simpl; try done; try congruence.
    unfold counted in *. case_decide; lia. }
  destruct (inv_counters _ HI) as (p & c & ti & Hp & Hc & Hti & ? & ? & ?).
  destruct (handle_gesture_commit rnd r s p c ti Hu) as
    (cm & message & game' & p' & c' & ti' & s1 & _ & _ & Hp' & Hc' & Hti'
     & ? & ? & ? & _ & Hs1 & Hgame & Hl & Hf & Hk & Hid & Hw & _);
    [lia|done..|].
  rewrite Hh in Hs1. injection Hs1 as <-. subst game'.
  eapply (inv_commit s s' p' c' ti'); try done; lia.
Qed.

Lemma inv_update_video (i : Tick) (s s' : t) :
  Inv s → _update_video i s = Some s' → Inv s'.
Proof.
  intros HI. unfold _update_video.
  destruct (ret i); simpl negb; cbv iota.
  - destruct (GestureRecognizer.process _) as [[r lms]|]; [|done]. simpl.
    destruct (_lockout s) eqn:Hlock; simpl negb; cbv iota.
    + intros [= <-]. by apply inv_schedule_tick.
    + destruct (_handle_gesture (rnd i) r s) as [s1|] eqn:Hh; [|done].
      intros [= <-]. apply inv_schedule_tick.
      by eapply inv_handle_gesture.
  - intros [= <-].
    apply (inv_schedule_tick 500 (set_status "Camera feed unavailable." s)).
    by apply (inv_ext s).
Qed.

Lemma due_first_Some (id : nat) (w : Tk.t) (cb : Tk.callback) :
  Tk.due_first id w = Some cb →
  ∃ due, Tk.pending w !! id = Some (due, cb) ∧ due ≤ Tk.now w.
Proof.
  unfold Tk.due_first. destruct (Tk.pending w !! id) as [[due cb']|]; [|done].
  simpl. case_bool_decide as Hdue; [|done]. intros [= <-].
  exists due. by destruct Hdue.
Qed.

(** The main loop taking a video tick off the queue keeps the invariant. *)
Lemma inv_take_tick (id : nat) (due : Z) (s : t) :
  Inv s → Tk.pending (window s) !! id = Some (due, Tk.cb_update_video) →
  Inv (set_window (Tk.take id (window s)) s).
Proof.
  intros [Hfr Hidle Hcnt Hnamed Hrel Hfresh] Hid. split; simpl; try done.
  - intros id' due' [_ Hpend]%lookup_delete_Some. by eapply Hnamed.
  - intros Hlock. destruct (Hrel Hlock) as (rid & rdue & Hrid & Hpend).
    exists rid, rdue. split; [done|].
    rewrite lookup_delete_ne; [done|]. congruence.
  - intros id' e [_ Hpend]%lookup_delete_Some. by eapply Hfresh.
Qed.

(** The release of the lock-out, taken off the queue and run. *)
Lemma inv_release (id : nat) (due : Z) (s : t) :
  Inv s → Tk.pending (window s) !! id = Some (due, Tk.cb_release_lockout) →
  Inv (_release_lockout (set_window (Tk.take id (window s)) s)).
Proof.
  intros [Hfr Hidle Hcnt Hnamed Hrel Hfresh] Hid. split; simpl; try done.
  - intros id' due' [Hne Hpend]%lookup_delete_Some.
    apply Hnamed in Hid as [_ Hid]. apply Hnamed in Hpend as [_ Hpend].
    congruence.
  - intros id' e [_ Hpend]%lookup_delete_Some. by eapply Hfresh.
Qed.

Lemma inv_reset (s : t) : Inv s → Inv (_reset_game s).
Proof.
  intros [Hfr Hidle Hcnt Hnamed Hrel Hfresh]. unfold _reset_game.
  destruct (_lockout_after_id s) as [rid|] eqn:Hrid; split; simpl; try done.
  - exists 0, 0, 0. by repeat split.
  - intros id due [Hne Hpend]%lookup_delete_Some.
    apply Hnamed in Hpend as [_ Hpend]. congruence.
  - intros id e [_ Hpend]%lookup_delete_Some. by eapply Hfresh.
  - exists 0, 0, 0. by repeat split.
  - intros id due Hpend. apply Hnamed in Hpend as [_ Hpend]. congruence.
Qed.

Lemma inv_sleep (dt : Z) (s : t) :
  Inv s → Inv (set_window (Tk.sleep dt (window s)) s).
Proof. intros []. split; done. Qed.

Lemma inv_step (e : event) (s s' : t) : Inv s → step e s = Some s' → Inv s'.
Proof.
  intros HI. destruct e as [id i| |dt]; simpl.
  - destruct (Tk.due_first id (window s)) as [cb|] eqn:Hdue; [|done]. simpl.
    apply due_first_Some in Hdue as (due & Hpend & _).
    destruct cb.
    + apply inv_update_video. by eapply inv_take_tick.
    + intros [= <-]. by eapply inv_release.
  - intros [= <-]. by apply inv_reset.
  - destruct (0 <=? dt); [|done]. intros [= <-]. by apply inv_sleep.
Qed.

Lemma inv_run (es : list event) (s s' : t) : Inv s → run es s = Some s' → Inv s'.
Proof.
  revert s. induction es as [|e es IH]; intros s HI; simpl.
  - by intros [= <-].
  - destruct (step e s) as [s1|] eqn:Hstep; [|done]. simpl.
    apply IH. by eapply inv_step.
Qed.

Lemma inv_reachable (s : t) : reachable s → Inv s.
Proof.
  intros (i & es & Hrun). unfold __init__ in Hrun.
  destruct (_update_video i fresh) as [s0|] eqn:Hinit; [|done]. simpl in Hrun.
  eapply inv_run; [|exact Hrun].
  eapply inv_update_video; [apply inv_fresh | exact Hinit].
Qed.

Lemma reachable_step (e : event) (s s' : t) :
  reachable s → step e s = Some s' → reachable s'.
Proof.
  intros (i & es & Hrun) Hstep. exists i, (es ++ [e])%list.
  destruct (__init__ i) as [s0|]; [|done]. simpl in *.
  clear i. revert s0 Hrun. induction es as [|e' es IH]; intros s0; simpl.
  - intros [= ->]. by rewrite Hstep.
  - destruct (step e' s0) as [s1|]; [|done]. simpl. apply IH.
Qed.

(** *** Reset *)

(** C7. In every reachable state, the reset leaves the debouncer idle
    (candidate cleared, count 0, not locked), leaves no release of the
    lock-out in the [after] queue, so that whatever the main loop runs next
    is a video tick, and leaves a game whose three counters are 0. *)
Theorem reset_game_clears (s : t) :
  reachable s →
  debounce (_reset_game s) = ("unknown", 0, false) ∧
  _lockout_after_id (_reset_game s) = None ∧
  ¬ release_pending (_reset_game s) ∧
  (∀ id cb, Tk.due_first id (window (_reset_game s)) = Some cb →
            cb = Tk.cb_update_video) ∧
  GestureRPSGame.score (game (_reset_game s)) !! "player" = Some 0 ∧
  GestureRPSGame.score (game (_reset_game s)) !! "computer" = Some 0 ∧
  GestureRPSGame.score (game (_reset_game s)) !! "ties" = Some 0 ∧
  rounds (_reset_game s) = Some 0.
Proof.
  intros HI%inv_reachable.
  assert (Hnone : ¬ release_pending (_reset_game s)).
  { intros (id & due & Hpend).
    pose proof (inv_release_named _ (inv_reset s HI) id due Hpend) as [Hlock _].
    revert Hlock. unfold _reset_game.
    destruct (_lockout_after_id s); simpl; discriminate. }
  assert (Hfields : debounce (_reset_game s) = ("unknown", 0, false) ∧
                    _lockout_after_id (_reset_game s) = None ∧
                    game (_reset_game s) = GestureRPSGame.__init__).
  { unfold _reset_game, debounce.
    destruct (_lockout_after_id s) eqn:Hid; repeat split; simpl; congruence. }
  destruct Hfields as (Hd & Hid & Hgame).
  unfold rounds. rewrite Hgame.
  repeat split; try done.
  intros id cb (due & Hpend & _)%due_first_Some.
  destruct cb; [done|]. destruct Hnone. by exists id, due.
Qed.

(** The held-up run ends in a reachable state that is locked, has resolved
    one round and whose release was due at 2070 ms, 30 ms ago. *)
Lemma stalled_state :
  ∃ s, stalled = Some s ∧ reachable s ∧
       debounce s = ("unknown", 0, true) ∧ rounds s = Some 1 ∧
       _lockout_after_id s = Some 9%nat ∧
       cooldown_deadline s = Some 2070 ∧ Tk.now (window s) = 2100 ∧
       Tk.due_first 10 (window s) = Some Tk.cb_update_video.
Proof.
  destruct stalled as [s|] eqn:Hs; [|vm_compute in Hs; discriminate].
  exists s. split; [done|]. split.
  { exists (rock 1), (ten_rocks ++ [Sleep 1830])%list. exact Hs. }
  assert (Hfacts :
    (s ← stalled;
     Some (debounce s, rounds s, _lockout_after_id s, cooldown_deadline s,
           Tk.now (window s), Tk.due_first 10 (window s)))
    = Some ("unknown", 0, true, Some 1, Some 9%nat, Some 2070, 2100,
            Some Tk.cb_update_video)).
  { vm_compute. reflexivity. }
  rewrite Hs in Hfacts. simpl in Hfacts.
  injection Hfacts as Hl Hf Hk Hr Hid Hd Hn Hdf.
  unfold debounce. rewrite Hl, Hf, Hk. repeat split; assumption.
Qed.

Lemma reset_game_clears_witness :
  ∃ s, stalled = Some s ∧ release_pending s ∧
       ¬ release_pending (_reset_game s) ∧ rounds (_reset_game s) = Some 0.
Proof.
  destruct stalled_state as (s & Hs & Hreach & _ & _ & Hid & Hdue & _).
  exists s. split; [exact Hs|]. split.
  - unfold cooldown_deadline in Hdue. rewrite Hid in Hdue. simpl in Hdue.
    destruct (Tk.pending (window s) !! 9%nat) as [[due cb]|] eqn:Hpend;
      [|discriminate].
    simpl in Hdue. destruct (decide (cb = Tk.cb_release_lockout)) as [->|];
      [|discriminate].
    exists 9%nat, due. exact Hpend.
  - pose proof (reset_game_clears s Hreach) as (_ & _ & Hnone & _ & _ & _ & _ & Hr).
    split; [exact Hnone | exact Hr].
Defined.

(** *** The lock-out *)

(** What a tick does to a locked application, read off a run of it. *)
Lemma update_video_locked_inv (i : Tick) (s s' : t) :
  _lockout s = true → _update_video i s = Some s' →
  debounce s' = debounce s ∧ game s' = game s ∧
  _lockout_after_id s' = _lockout_after_id s ∧
  window s' = (Tk.after (if ret i then 30 else 500)
                 Tk.cb_update_video (window s)).2.
Proof.
  intros Hlock. unfold _update_video.
  destruct (ret i); simpl negb; cbv iota.
  - destruct (GestureRecognizer.process _) as [[r lms]|]; [|done]. simpl.
    rewrite Hlock. simpl. intros [= <-]. by repeat split.
  - intros [= <-]. by repeat split.
Qed.

(** No method of the application moves the clock. *)
Lemma handle_gesture_now (rnd : nat) (r : GestureResult) (s s' : t) :
  Inv s → _handle_gesture rnd r s = Some s' →
  Tk.now (window s') = Tk.now (window s).
Proof.
  intros HI Hh.
  destruct (decide (name r = "unknown")) as [Hu|Hu].
  { rewrite handle_gesture_unknown in Hh by done. by injection Hh as <-. }
  destruct (decide (counted (name r) s < 10)) as [Hn|Hn].
  { rewrite handle_gesture_accumulate in Hh by done. by injection Hh as <-. }
  destruct (inv_counters _ HI) as (p & c & ti & Hp & Hc & Hti & _).
  destruct (handle_gesture_commit rnd r s p c ti Hu) as
    (cm & message & game' & p' & c' & ti' & s1 & _ & _ & _ & _ & _
     & _ & _ & _ & _ & Hs1 & _ & _ & _ & _ & _ & Hw & _);
    [lia|done..|].
  rewrite Hh in Hs1. injection Hs1 as <-. by rewrite Hw.
Qed.

Lemma update_video_now (i : Tick) (s s' : t) :
  Inv s → _update_video i s = Some s' →
  Tk.now (window s') = Tk.now (window s).
Proof.
  intros HI. unfold _update_video.
  destruct (ret i); simpl negb; cbv iota.
  - destruct (GestureRecognizer.process _) as [[r lms]|]; [|done]. simpl.
    destruct (_lockout s); simpl negb; cbv iota.
    + by intros [= <-].
    + destruct (_handle_gesture (rnd i) r s) as [s1|] eqn:Hh; [|done].
      intros [= <-]. simpl. by eapply handle_gesture_now.
  - by intros [= <-].
Qed.

Lemma step_now (e : event) (s s' : t) :
  Inv s → step e s = Some s' → Tk.now (window s) ≤ Tk.now (window s').
Proof.
  intros HI. destruct e as [id i| |dt]; simpl.
  - destruct (Tk.due_first id (window s)) as [cb|] eqn:Hdue; [|done]. simpl.
    apply due_first_Some in Hdue as (due & Hpend & _).
    destruct cb.
    + intros Hs'. apply update_video_now in Hs'; [|by eapply inv_take_tick].
      rewrite Hs'. done.
    + by intros [= <-].
  - intros [= <-]. unfold _reset_game.
    destruct (_lockout_after_id s); simpl; lia.
  - destruct (0 <=? dt) eqn:Hdt; [|done]. intros [= <-]. simpl. lia.
Qed.

Lemma run_now (es : list event) (s s' : t) :
  Inv s → run es s = Some s' → Tk.now (window s) ≤ Tk.now (window s').
Proof.
  revert s. induction es as [|e es IH]; intros s HI; simpl.
  - by intros [= <-].
  - destruct (step e s) as [s1|] eqn:Hstep; [|done]. simpl. intros Hrun.
    pose proof (step_now e s s1 HI Hstep).
    pose proof (IH s1 (inv_step e s s1 HI Hstep) Hrun). lia.
Qed.

(** The deadline of a locked application, unfolded. *)
Lemma cooldown_deadline_Some (s : t) (due : Z) :
  cooldown_deadline s = Some due ↔
  ∃ id, _lockout_after_id s = Some id ∧
        Tk.pending (window s) !! id = Some (due, Tk.cb_release_lockout).
Proof.
  unfold cooldown_deadline. split.
  - destruct (_lockout_after_id s) as [id|]; [|done]. simpl.
    destruct (Tk.pending (window s) !! id) as [[due' cb]|] eqn:Hpend; [|done].
    simpl. case_decide; [|done]. intros [= <-]. subst cb. by exists id.
  - intros (id & -> & Hpend). simpl. rewrite Hpend. reflexivity.
Qed.

(** A reachable application that is locked has a deadline. *)
Lemma locked_has_deadline (s : t) :
  Inv s → _lockout s = true → ∃ due, cooldown_deadline s = Some due.
Proof.
  intros HI Hlock.
  destruct (inv_locked_release _ HI Hlock) as (id & due & Hid & Hpend).
  exists due. apply cooldown_deadline_Some. by exists id.
Qed.

(** One step of the main loop, other than a reset, that ends before the
    deadline of a locked application. *)
Lemma step_locked (e : event) (s s' : t) (deadline : Z) :
  Inv s → _lockout s = true → cooldown_deadline s = Some deadline →
  e ≠ Reset → step e s = Some s' → Tk.now (window s') < deadline →
  debounce s' = debounce s ∧ game s' = game s ∧
  cooldown_deadline s' = Some deadline.
Proof.
  intros HI Hlock (rid & Hrid & Hrel)%cooldown_deadline_Some Hreset Hstep Hnow.
  destruct e as [id i| |dt]; [| done |]; simpl in Hstep.
  - destruct (Tk.due_first id (window s)) as [cb|] eqn:Hdue; [|done].
    simpl in Hstep.
    apply due_first_Some in Hdue as (due & Hpend & Hdue).
    destruct cb.
    + apply update_video_locked_inv in Hstep as (Hd & Hg & Hid & Hw); [|done].
      repeat split; try done.
      apply cooldown_deadline_Some. exists rid. rewrite Hid, Hw. simpl.
      split; [done|].
      rewrite lookup_insert_ne.
      * rewrite lookup_delete_ne; [done|]. congruence.
      * apply (inv_ids_fresh _ HI) in Hrel. lia.
    + injection Hstep as <-. simpl in Hnow.
      pose proof (inv_release_named _ HI _ _ Hpend) as [_ Hid'].
      assert (rid = id) as -> by congruence.
      assert (due = deadline) as -> by congruence.
      lia.
  - destruct (0 <=? dt); [|done]. injection Hstep as <-.
    repeat split; try done.
    apply cooldown_deadline_Some. by exists rid.
Qed.

Lemma feed_locked (ticks : list Tick) (s : t) :
  _lockout s = true → Forall well_formed ticks →
  ∃ s', feed ticks s = Some s' ∧
        debounce s' = debounce s ∧ game s' = game s ∧
        _lockout_after_id s' = _lockout_after_id s ∧
        _player_score_var s' = _player_score_var s ∧
        _computer_score_var s' = _computer_score_var s ∧
        _tie_score_var s' = _tie_score_var s.
Proof.
  revert s. induction ticks as [|i ticks IH]; intros s Hlock Hwf.
  - exists s. by repeat split.
  - apply Forall_cons in Hwf as [Hi Hwf].
    destruct (update_video_locked i s Hi Hlock)
      as (s1 & Hs1 & Hd1 & Hg1 & Hid1 & Hp1 & Hc1 & Ht1 & _).
    assert (Hlock1 : _lockout s1 = true).
    { unfold debounce in Hd1. congruence. }
    destruct (IH s1 Hlock1 Hwf) as (s' & Hs' & Hd' & Hg' & Hid' & Hp' & Hc' & Ht').
    exists s'. simpl. rewrite Hs1. simpl.
    repeat split; congruence.
Qed.

Lemma run_locked (es : list event) (s s' : t) (deadline : Z) :
  Inv s → _lockout s = true → cooldown_deadline s = Some deadline →
  Reset ∉ es → run es s = Some s' → Tk.now (window s') < deadline →
  debounce s' = debounce s ∧ game s' = game s ∧
  cooldown_deadline s' = Some deadline.
Proof.
  revert s. induction es as [|e es IH]; intros s HI Hlock Hdl Hreset; simpl.
  - by intros [= <-].
  - destruct (step e s) as [s1|] eqn:Hstep; [|done]. simpl. intros Hrun Hnow.
    apply not_elem_of_cons in Hreset as [He Hreset].
    pose proof (inv_step e s s1 HI Hstep) as HI1.
    pose proof (run_now es s1 s' HI1 Hrun) as Hle.
    destruct (step_locked e s s1 deadline HI Hlock Hdl) as (Hd1 & Hg1 & Hdl1);
      [done | done | lia |].
    assert (Hlock1 : _lockout s1 = true).
    { unfold debounce in Hd1. congruence. }
    destruct (IH s1 HI1 Hlock1 Hdl1 Hreset Hrun Hnow) as (Hd' & Hg' & Hdl').
    repeat split; congruence.
Qed.

(** C3. While the lock-out flag is set, the frames fed to [_update_video]
    are ignored whatever they show: every tick returns, the debouncer
    (candidate, count, locked) and the game are as before, and no round is
    added. In the running program the flag stays set until the deadline of
    the release: of a reachable, locked state, every run of the main loop
    without a reset that ends before the cool-down deadline leaves the
    debouncer, the game and the deadline as they were. *)
Theorem locked_ignores_observations (s : t) :
  _lockout s = true →
  (∀ ticks, Forall well_formed ticks →
     ∃ s', feed ticks s = Some s' ∧
           debounce s' = debounce s ∧ game s' = game s ∧ rounds s' = rounds s) ∧
  (reachable s →
     ∃ deadline, cooldown_deadline s = Some deadline ∧
       ∀ es s', Reset ∉ es → run es s = Some s' →
                Tk.now (window s') < deadline →
                debounce s' = debounce s ∧ game s' = game s ∧
                rounds s' = rounds s ∧
                cooldown_deadline s' = Some deadline).
Proof.
  intros Hlock. split.
  - intros ticks Hwf.
    destruct (feed_locked ticks s Hlock Hwf) as (s' & Hs' & Hd & Hg & _).
    exists s'. unfold rounds. rewrite Hg. by repeat split.
  - intros HI%inv_reachable.
    destruct (locked_has_deadline s HI Hlock) as [deadline Hdl].
    exists deadline. split; [done|]. intros es s' Hreset Hrun Hnow.
    destruct (run_locked es s s' deadline HI Hlock Hdl Hreset Hrun Hnow)
      as (Hd & Hg & Hdl').
    unfold rounds. rewrite Hg. by repeat split.
Qed.

Lemma locked_ignores_observations_witness :
  ∃ s, just_locked = Some s ∧
       (∃ s', feed (replicate 10 (rock 1)) s = Some s' ∧
              debounce s' = debounce s ∧ rounds s' = rounds s) ∧
       (∃ s', run [Sleep 30; Timer 10 (rock 1)] s = Some s' ∧
              debounce s' = debounce s ∧ rounds s' = rounds s).
Proof.
  assert (Hfacts :
    (s ← just_locked; s' ← run [Sleep 30; Timer 10 (rock 1)] s;
     Some (_lockout s, cooldown_deadline s, Tk.now (window s')))
    = Some (true, Some 2070, 300)).
  { vm_compute. reflexivity. }
  apply bind_Some in Hfacts as (s & Hs & Hfacts).
  apply bind_Some in Hfacts as (s' & Hs' & Hfacts).
  injection Hfacts as Hlock Hdl Hnow.
  assert (Hreach : reachable s).
  { exists (rock 1), ten_rocks. exact Hs. }
  destruct (locked_ignores_observations s Hlock) as [Hfeed Hrun].
  exists s. split; [exact Hs|]. split.
  - destruct (Hfeed (replicate 10 (rock 1))) as (s1 & Hs1 & Hd1 & _ & Hr1).
    { repeat constructor. }
    exists s1. auto.
  - destruct (Hrun Hreach) as (deadline & Hdl' & Hquiet).
    rewrite Hdl in Hdl'. injection Hdl' as <-.
    destruct (Hquiet [Sleep 30; Timer 10 (rock 1)] s') as (Hd & _ & Hr & _).
    + intros Hin. apply elem_of_cons in Hin as [Hin|Hin]; [discriminate|].
      apply elem_of_cons in Hin as [Hin|Hin]; [discriminate|].
      by apply elem_of_nil in Hin.
    + exact Hs'.
    + rewrite Hnow. reflexivity.
    + exists s'. auto.
Defined.

(** *** The release of the lock-out *)

(** C4, as the specification words it, fails. The program does not look at
    the clock when a frame arrives: in the held-up run the release was due
    at 2070 ms, it is 2100 ms, the main loop runs the video tick that was
    due at 300 ms first, and the frame, which shows paper, is dropped: the
    debouncer stays locked and idle. Rule 2 of the specification would have
    made paper the candidate with count 1. *)
Lemma elapsed_deadline_frame_dropped :
  ∃ s, stalled = Some s ∧ reachable s ∧
       _lockout s = true ∧ cooldown_deadline s = Some 2070 ∧
       Tk.now (window s) = 2100 ∧
       observation (paper 1) = Some "paper" ∧
       Tk.due_first 10 (window s) = Some Tk.cb_update_video ∧
       option_map debounce (step (Timer 10 (paper 1)) s)
       = Some ("unknown", 0, true) ∧
       option_map debounce (lazy_release_step (paper 1) s)
       = Some ("paper", 1, false).
Proof.
  assert (Hfacts :
    (s ← stalled;
     Some (_lockout s, cooldown_deadline s, Tk.now (window s),
           Tk.due_first 10 (window s),
           option_map debounce (step (Timer 10 (paper 1)) s),
           option_map debounce (lazy_release_step (paper 1) s)))
    = Some (true, Some 2070, 2100, Some Tk.cb_update_video,
            Some ("unknown", 0, true), Some ("paper", 1, false))).
  { vm_compute. reflexivity. }
  apply bind_Some in Hfacts as (s & Hs & Hfacts).
  injection Hfacts as Hlock Hdl Hnow Hdue Hstep Hlazy.
  exists s. split; [exact Hs|]. split.
  { exists (rock 1), (ten_rocks ++ [Sleep 1830])%list. exact Hs. }
  repeat split; assumption || reflexivity.
Qed.

(** C4, as the code has it. In a reachable state that is locked:
    - a video tick leaves the debouncer as it is, whatever the time;
    - a callback of the main loop that ends the lock-out is the release that
      [_lockout_after_id] names, it runs at or after the deadline, and it
      leaves the debouncer idle without looking at a frame;
    - [_release_lockout] leaves the debouncer idle and the game untouched,
      and the first frame that comes after it is handled under the rules
      for an unknown and for a new gesture: unknown keeps the debouncer
      idle, a gesture becomes the candidate with count 1. *)
Theorem release_then_observe (s : t) :
  reachable s → _lockout s = true →
  (∀ i s', _update_video i s = Some s' → debounce s' = debounce s) ∧
  (∀ id i s' deadline,
     cooldown_deadline s = Some deadline →
     step (Timer id i) s = Some s' → _lockout s' = false →
     _lockout_after_id s = Some id ∧ deadline ≤ Tk.now (window s) ∧
     debounce s' = ("unknown", 0, false) ∧ game s' = game s) ∧
  debounce (_release_lockout s) = ("unknown", 0, false) ∧
  game (_release_lockout s) = game s ∧
  (∀ i g, observation i = Some g →
     ∃ s', _update_video i (_release_lockout s) = Some s' ∧
           game s' = game s ∧
           debounce s' = if decide (g = "unknown") then ("unknown", 0, false)
                         else (g, 1, false)).
Proof.
  intros HI%inv_reachable Hlock.
  destruct (inv_locked_idle _ HI Hlock) as [Hlast Hfr].
  split; [|split; [|split; [|split]]].
  - intros i s' Hs'. by apply update_video_locked_inv in Hs' as [? _].
  - intros id i s' deadline (rid & Hrid & Hrel)%cooldown_deadline_Some Hstep Hun.
    simpl in Hstep.
    destruct (Tk.due_first id (window s)) as [cb|] eqn:Hdue; [|done].
    simpl in Hstep. apply due_first_Some in Hdue as (due & Hpend & Hdue).
    destruct cb.
    + apply update_video_locked_inv in Hstep as (Hd & _); [|done].
      injection Hd as _ _ Hk. simpl in Hk. congruence.
    + injection Hstep as <-.
      pose proof (inv_release_named _ HI _ _ Hpend) as [_ Hid].
      assert (rid = id) as -> by congruence.
      assert (due = deadline) as -> by congruence.
      unfold debounce. simpl. rewrite Hlast, Hfr. by repeat split.
  - unfold debounce. simpl. by rewrite Hlast, Hfr.
  - reflexivity.
  - intros i g Hobs. case_decide as Hg.
    + subst g.
      destruct (update_video_unknown i (_release_lockout s) Hobs)
        as (s' & Hs' & Hl' & Hf' & Hk' & Hg' & _); [done|].
      exists s'. unfold debounce. rewrite Hl', Hf', Hk'. by repeat split.
    + assert (Hcount : counted g (_release_lockout s) = 1).
      { unfold counted. simpl. rewrite Hlast. by rewrite decide_False. }
      destruct (update_video_accumulate i (_release_lockout s) g Hobs Hg)
        as (s' & Hs' & Hl' & Hf' & Hk' & Hg' & _); [done|lia|].
      exists s'. unfold debounce. rewrite Hl', Hf', Hk', Hcount. by repeat split.
Qed.

Lemma release_then_observe_witness :
  ∃ s, stalled = Some s ∧
       debounce (_release_lockout s) = ("unknown", 0, false) ∧
       ∃ s', _update_video (paper 1) (_release_lockout s) = Some s' ∧
             debounce s' = ("paper", 1, false).
Proof.
  destruct stalled_state as (s & Hs & Hreach & Hd & _).
  assert (Hlock : _lockout s = true).
  { unfold debounce in Hd. congruence. }
  destruct (release_then_observe s Hreach Hlock) as (_ & _ & Hidle & _ & Hnext).
  exists s. split; [exact Hs|]. split; [exact Hidle|].
  destruct (Hnext (paper 1) "paper") as (s' & Hs' & _ & Hd'); [reflexivity|].
  exists s'. split; [exact Hs' | exact Hd'].
Defined.

End App.

(** * Further properties of the program *)

(** ** The recognizer at its edges *)

Section RecognizerEdges.
Import GestureRecognizer Hands.

Lemma is_extended_None (hand : Hand) (tip_idx pip_idx : nat) :
  (length hand ≤ tip_idx)%nat → _is_extended hand tip_idx pip_idx = None.
Proof.
  intros Hlen. unfold _is_extended.
  by rewrite (lookup_ge_None_2 hand tip_idx Hlen).
Qed.

Lemma fingers_extended_long (hand : Hand) :
  (21 ≤ length hand)%nat →
  ∃ thumb index middle ring pinky,
    fingers_extended hand = Some (fingers thumb index middle ring pinky).
Proof.
  intros Hlen.
  destruct (is_extended_total hand 4 3) as [t Ht]; [lia..|].
  destruct (is_extended_total hand 8 6) as [i Hi]; [lia..|].
  destruct (is_extended_total hand 12 10) as [m Hm]; [lia..|].
  destruct (is_extended_total hand 16 14) as [r Hr]; [lia..|].
  destruct (is_extended_total hand 20 18) as [p Hp]; [lia..|].
  exists t, i, m, r, p. unfold fingers_extended, _FINGER_LANDMARKS. simpl.
  rewrite Ht, Hi, Hm, Hr, Hp. reflexivity.
Qed.

Lemma fingers_extended_short (hand : Hand) :
  (length hand < 21)%nat → fingers_extended hand = None.
Proof.
  intros Hlen. unfold fingers_extended, _FINGER_LANDMARKS. simpl.
  rewrite (is_extended_None hand 20 18) by lia.
  destruct (_is_extended hand 4 3); simpl; [|done].
  destruct (_is_extended hand 8 6); simpl; [|done].
  destruct (_is_extended hand 12 10); simpl; [|done].
  destruct (_is_extended hand 16 14); simpl; done.
Qed.

(** X1. [_classify] reads landmark 20, the tip of the little finger: it
    returns on a hand exactly when the hand has at least 21 landmarks and
    raises on every shorter one, and [process] raises exactly when the first
    hand detected is such a short one; the hands after the first are never
    looked at. *)
Theorem classify_needs_21_landmarks (hand : Hand) (others : list Hand) :
  (is_Some (_classify hand) ↔ (21 ≤ length hand)%nat) ∧
  (is_Some (process (hand :: others)) ↔ (21 ≤ length hand)%nat) ∧
  process (hand :: others) = process [hand].
Proof.
  assert (Hc : is_Some (_classify hand) ↔ (21 ≤ length hand)%nat).
  { split.
    - intros [g Hg]. destruct (decide (21 ≤ length hand)%nat); [done|].
      unfold _classify in Hg. rewrite fingers_extended_short in Hg by lia.
      discriminate.
    - intros Hlen.
      destruct (fingers_extended_long hand Hlen) as (t & i & m & r & p & Hfe).
      rewrite (classify_of_fingers _ _ _ _ _ _ Hfe). by eexists. }
  split; [exact Hc|]. split; [|reflexivity].
  rewrite <- Hc. simpl. destruct (_classify hand) as [g|]; simpl.
  - split; intros _; by eexists.
  - split; intros [? [=]].
Qed.

(** The five names [classify_fingers] can return. *)
Lemma classify_fingers_range (thumb index middle ring pinky : bool) :
  classify_fingers thumb index middle ring pinky ∈ GestureRPSGame.MOVES ∨
  classify_fingers thumb index middle ring pinky = "unknown".
Proof.
  unfold GestureRPSGame.MOVES.
  destruct thumb, index, middle, ring, pinky; cbn;
    first [by right | left; repeat constructor].
Qed.

Lemma classify_range (hand : Hand) (g : string) :
  _classify hand = Some g → g ∈ GestureRPSGame.MOVES ∨ g = "unknown".
Proof.
  intros Hg.
  destruct (decide (21 ≤ length hand)%nat) as [Hlen|Hlen].
  - destruct (fingers_extended_long hand Hlen) as (t & i & m & r & p & Hfe).
    rewrite (classify_of_fingers _ _ _ _ _ _ Hfe) in Hg. injection Hg as <-.
    apply classify_fingers_range.
  - unfold _classify in Hg. rewrite fingers_extended_short in Hg by lia.
    discriminate.
Qed.

Lemma process_range (hands : list Hand) (r : GestureResult) (lms : option Hand) :
  process hands = Some (r, lms) →
  name r ∈ GestureRPSGame.MOVES ∨ name r = "unknown".
Proof.
  destruct hands as [|h hands]; simpl.
  - intros [= <- _]. by right.
  - destruct (_classify h) as [g|] eqn:Hg; simpl; [|done].
    intros [= <- _]. simpl. by eapply classify_range.
Qed.

(** X2. The gesture [process] reports is one of the four moves of the game
    or "unknown", each of the five is the reading of some hand, the
    confidence is 1.0 exactly for the four moves, and the landmarks handed
    to the overlay are those of the first hand, or [None] exactly when no
    hand was detected, in which case the gesture is "unknown". *)
Theorem process_reports_moves (hands : list Hand) (r : GestureResult)
    (lms : option Hand) :
  process hands = Some (r, lms) →
  (name r ∈ GestureRPSGame.MOVES ∨ name r = "unknown") ∧
  (confidence r = 1.0%float ↔ name r ∈ GestureRPSGame.MOVES) ∧
  lms = head hands ∧
  (lms = None → name r = "unknown") ∧
  (∀ g, g ∈ GestureRPSGame.MOVES ∨ g = "unknown" →
        ∃ hand, length hand = 21%nat ∧ _classify hand = Some g).
Proof.
  intros Hp. pose proof (process_range _ _ _ Hp) as Hrange.
  assert (Hunknown : "unknown" ∉ GestureRPSGame.MOVES).
  { apply (bool_decide_unpack _). vm_compute. exact I. }
  split; [exact Hrange|]. split; [|split; [|split]].
  - destruct hands as [|h hands]; simpl in Hp.
    + injection Hp as <- <-. simpl. split.
      * intros H. symmetry in H. by apply float_one_ne_zero in H.
      * intros H. by destruct Hunknown.
    + destruct (_classify h) as [g|]; simpl in Hp; [|done].
      injection Hp as <- <-. simpl. case_decide as Hg.
      * split; [|done]. intros _.
        simpl in Hrange. by destruct Hrange.
      * split.
        -- intros H. symmetry in H. by apply float_one_ne_zero in H.
        -- intros H. subst g. by destruct Hunknown.
  - destruct hands as [|h hands]; simpl in Hp.
    + by injection Hp as <- <-.
    + destruct (_classify h); simpl in Hp; [|done]. by injection Hp as <- <-.
  - destruct hands as [|h hands]; simpl in Hp.
    + by injection Hp as <- <-.
    + destruct (_classify h); simpl in Hp; [|done]. injection Hp as <- <-.
      discriminate.
  - intros g [Hg| ->].
    + unfold GestureRPSGame.MOVES in Hg.
      apply elem_of_cons in Hg as [->|Hg];
        [by exists (hand_of false false false false false)|].
      apply elem_of_cons in Hg as [->|Hg];
        [by exists (hand_of true true true true true)|].
      apply elem_of_cons in Hg as [->|Hg];
        [by exists (hand_of false true true false false)|].
      apply elem_of_cons in Hg as [->|Hg];
        [by exists (hand_of false true false false false)|].
      by apply elem_of_nil in Hg.
    + by exists (hand_of true false false false false).
Qed.

Lemma process_reports_moves_witness :
  ("scissors" ∈ GestureRPSGame.MOVES ∨ "scissors" = "unknown") ∧
  (1.0%float = 1.0%float ↔ "scissors" ∈ GestureRPSGame.MOVES).
Proof.
  destruct (process_reports_moves
              [hand_of true true true false false]
              {| name := "scissors"; confidence := 1.0 |}
              (Some (hand_of true true true false false)))
    as (Hrange & Hconf & _); [vm_compute; reflexivity|].
  split; [exact Hrange | exact Hconf].
Defined.

(** The comparison of [_is_extended] is strict, for every binary64 value,
    NaN included. *)
Lemma float_ltb_irrefl (v : float) : PrimFloat.ltb v v = false.
Proof.
  rewrite ltb_spec. unfold SFltb, SFcompare.
  destruct (Prim2SF v) as [sg|sg| |sg m e]; try reflexivity;
    destruct sg; try reflexivity;
    rewrite Z.compare_refl, Pos.compare_cont_refl; reflexivity.
Qed.

Lemma is_extended_level (hand : Hand) (tip_idx pip_idx : nat) :
  (tip_idx < length hand)%nat → (pip_idx < length hand)%nat →
  (∀ a b, hand !! tip_idx = Some a → hand !! pip_idx = Some b → y a = y b) →
  _is_extended hand tip_idx pip_idx = Some false.
Proof.
  intros Ht Hp Hlevel. unfold _is_extended.
  destruct (lookup_lt_is_Some_2 hand tip_idx Ht) as [a Ha].
  destruct (lookup_lt_is_Some_2 hand pip_idx Hp) as [b Hb].
  rewrite Ha, Hb. simpl. rewrite (Hlevel a b Ha Hb).
  by rewrite float_ltb_irrefl.
Qed.

(** X3. A finger counts as extended only when its tip is strictly above
    its knuckle. A hand on which every fingertip is level with its knuckle
    (the same [y], be it NaN) is read as a fist: rock. *)
Theorem level_hand_is_rock (hand : Hand) :
  (21 ≤ length hand)%nat →
  (∀ finger tip_idx pip_idx a b,
     (finger, (tip_idx, pip_idx)) ∈ _FINGER_LANDMARKS →
     hand !! tip_idx = Some a → hand !! pip_idx = Some b → y a = y b) →
  _classify hand = Some "rock".
Proof.
  intros Hlen Hlevel.
  assert (Hfe : fingers_extended hand
                = Some (fingers false false false false false)).
  { unfold fingers_extended, _FINGER_LANDMARKS in *. simpl.
    rewrite (is_extended_level hand 4 3), (is_extended_level hand 8 6),
      (is_extended_level hand 12 10), (is_extended_level hand 16 14),
      (is_extended_level hand 20 18); try lia; try reflexivity;
      intros a b; eapply Hlevel; repeat constructor. }
  rewrite (classify_of_fingers _ _ _ _ _ _ Hfe). reflexivity.
Qed.

Lemma level_hand_is_rock_witness :
  _classify (replicate 21 (lm nan)) = Some "rock".
Proof.
  apply level_hand_is_rock; [rewrite length_replicate; lia|].
  intros finger tip_idx pip_idx a b _ Ha Hb.
  apply lookup_replicate in Ha as [-> _].
  apply lookup_replicate in Hb as [-> _]. reflexivity.
Defined.

End RecognizerEdges.

(** ** The game over many rounds *)

Section GameRounds.
Import GestureRPSGame Rules Tally.

(** One call of [resolve_round] on a game that has its counters: the
    outcome its message reports is the counter that gains 1. *)
Lemma resolve_round_gain (self : t) (a b : string) (p c ti : Z) :
  score self !! "player" = Some p →
  score self !! "computer" = Some c →
  score self !! "ties" = Some ti →
  ∃ message self' o,
    resolve_round self a b = Some (message, self') ∧
    outcome message = Some o ∧
    score self' !! "player" = Some (p + gain PlayerWin o) ∧
    score self' !! "computer" = Some (c + gain ComputerWin o) ∧
    score self' !! "ties" = Some (ti + gain Tie o) ∧
    dom (score self') = dom (score self).
Proof.
  intros Hp Hc Hti.
  destruct (decide (a = b)) as [->|Hne]; [|destruct (beats_or_not a b)].
  - exists "It's a tie!", {| score := <["ties" := ti + 1]> (score self) |}, Tie.
    split; [by apply resolve_round_tie|]. unfold gain. simpl.
    simplify_map_eq. repeat split; try done; try (f_equal; lia).
    apply dom_insert_lookup_L. by eexists.
  - eexists _, {| score := <["player" := p + 1]> (score self) |}, PlayerWin.
    split; [by apply resolve_round_win|]. rewrite outcome_win.
    unfold gain. simpl. simplify_map_eq.
    repeat split; try done; try (f_equal; lia).
    apply dom_insert_lookup_L. by eexists.
  - eexists _, {| score := <["computer" := c + 1]> (score self) |}, ComputerWin.
    split; [by apply resolve_round_loss|]. rewrite outcome_loss.
    unfold gain. simpl. simplify_map_eq.
    repeat split; try done; try (f_equal; lia).
    apply dom_insert_lookup_L. by eexists.
Qed.

Lemma tally_cons (o : Outcome) (message : string) (messages : list string) (o' : Outcome) :
  outcome message = Some o' →
  tally o (message :: messages) = gain o o' + tally o messages.
Proof.
  intros Ho. unfold tally, gain. rewrite filter_cons, Ho.
  destruct (decide (Some o' = Some o)) as [[= ->]|Hne].
  - rewrite decide_True by done. simpl length. lia.
  - rewrite decide_False by congruence. lia.
Qed.

Lemma play_tally (moves : list (string * string)) (self : t) (p c ti : Z) :
  score self !! "player" = Some p →
  score self !! "computer" = Some c →
  score self !! "ties" = Some ti →
  ∃ messages self',
    play moves self = Some (messages, self') ∧
    length messages = length moves ∧
    score self' !! "player" = Some (p + tally PlayerWin messages) ∧
    score self' !! "computer" = Some (c + tally ComputerWin messages) ∧
    score self' !! "ties" = Some (ti + tally Tie messages) ∧
    dom (score self') = dom (score self).
Proof.
  revert self p c ti.
  induction moves as [|[a b] moves IH]; intros self p c ti Hp Hc Hti.
  - exists [], self. unfold tally. simpl.
    rewrite !Z.add_0_r. by repeat split.
  - destruct (resolve_round_gain self a b p c ti Hp Hc Hti)
      as (message & self1 & o & Hr & Ho & Hp1 & Hc1 & Hti1 & Hdom1).
    destruct (IH self1 _ _ _ Hp1 Hc1 Hti1)
      as (messages & self' & Hplay & Hlen & Hp' & Hc' & Hti' & Hdom').
    exists (message :: messages), self'.
    simpl. rewrite Hr. simpl. rewrite Hplay. simpl.
    rewrite !(tally_cons _ _ _ _ Ho).
    repeat split; try congruence.
    + rewrite Hp'. f_equal. lia.
    + rewrite Hc'. f_equal. lia.
    + rewrite Hti'. f_equal. lia.
Qed.

(** X4. However many rounds are resolved on a new game, with whatever
    strings as moves, no call raises, and the score is the tally of the
    messages returned: the player's counter is the number of "You win!"
    messages, the computer's the number of "I win!" messages, the ties
    counter the number of "It's a tie!" messages. The score dict keeps its
    three keys and the counters add up to the number of rounds. *)
Theorem score_is_tally (moves : list (string * string)) :
  ∃ messages self',
    play moves __init__ = Some (messages, self') ∧
    length messages = length moves ∧
    score self' !! "player" = Some (tally PlayerWin messages) ∧
    score self' !! "computer" = Some (tally ComputerWin messages) ∧
    score self' !! "ties" = Some (tally Tie messages) ∧
    dom (score self') = {[ "player"; "computer"; "ties" ]} ∧
    total (score self') = Some (Z.of_nat (length moves)) ∧
    0 ≤ tally PlayerWin messages ∧ 0 ≤ tally ComputerWin messages ∧
    0 ≤ tally Tie messages.
Proof.
  destruct (play_tally moves __init__ 0 0 0)
    as (messages & self' & Hplay & Hlen & Hp & Hc & Hti & Hdom); [done..|].
  exists messages, self'. rewrite !Z.add_0_l in *.
  assert (Hsum : tally PlayerWin messages + tally ComputerWin messages
                 + tally Tie messages = Z.of_nat (length moves)).
  { assert (Hall : Forall (λ m, is_Some (outcome m)) messages).
    { clear -Hplay. revert messages self' Hplay.
      generalize __init__ as self.
      induction moves as [|[a b] moves IH]; intros self messages self' Hplay;
        simpl in Hplay.
      - injection Hplay as <- _. constructor.
      - destruct (resolve_round self a b) as [[m self1]|] eqn:Hr; [|done].
        simpl in Hplay.
        destruct (play moves self1) as [[ms self2]|] eqn:Hplay1; [|done].
        injection Hplay as <- _. constructor; [|by eapply IH].
        unfold resolve_round in Hr.
        repeat case_decide;
          (destruct (Py.incr _ _); simpl in Hr; [|done]);
          injection Hr as <- _.
        + by rewrite outcome_tie.
        + by rewrite outcome_win.
        + by rewrite outcome_loss. }
    rewrite <- Hlen. clear -Hall.
    induction messages as [|m messages IH]; [done|].
    apply Forall_cons in Hall as [[o Ho] Hall].
    rewrite !(tally_cons _ _ _ _ Ho). specialize (IH Hall).
    simpl length. unfold gain. destruct o; repeat case_decide; try done; lia. }
  split_and!; try done.
  - unfold total. rewrite Hp, Hc, Hti. simpl. f_equal. lia.
  - unfold tally. lia.
  - unfold tally. lia.
  - unfold tally. lia.
Qed.

Lemma score_is_tally_witness :
  ∃ messages self',
    play [("rock", "scissors"); ("paper", "paper"); ("pencil", "rock")] __init__
    = Some (messages, self') ∧
    total (score self') = Some 3.
Proof.
  destruct (score_is_tally
              [("rock", "scissors"); ("paper", "paper"); ("pencil", "rock")])
    as (messages & self' & Hplay & _ & _ & _ & _ & _ & Htotal & _).
  exists messages, self'. split; [exact Hplay | exact Htotal].
Defined.

(** X5. Between two of the four moves the rules are fair to the seats:
    with the moves swapped, the player wins exactly when the computer won,
    the computer wins exactly when the player won, and a tie stays a tie. *)
Theorem swapped_moves_swap_winner (self : t) (a b : string) (p c ti : Z) :
  a ∈ MOVES → b ∈ MOVES →
  score self !! "player" = Some p →
  score self !! "computer" = Some c →
  score self !! "ties" = Some ti →
  ∃ m1 self1 m2 self2,
    resolve_round self a b = Some (m1, self1) ∧
    resolve_round self b a = Some (m2, self2) ∧
    (outcome m1 = Some PlayerWin ↔ outcome m2 = Some ComputerWin) ∧
    (outcome m1 = Some ComputerWin ↔ outcome m2 = Some PlayerWin) ∧
    (outcome m1 = Some Tie ↔ outcome m2 = Some Tie).
Proof.
  intros Ha Hb Hp Hc Hti.
  destruct (decide (a = b)) as [->|Hne].
  - do 4 eexists. split; [by apply resolve_round_tie|].
    split; [by apply resolve_round_tie|]. done.
  - assert (Hne' : b ≠ a) by congruence.
    destruct (beats_covers a b Ha Hb Hne) as [Hab|Hba].
    + pose proof (beats_asym _ _ Hab) as Hnba.
      do 4 eexists. split; [by apply resolve_round_win|].
      split; [by apply resolve_round_loss|].
      rewrite outcome_win, outcome_loss. intuition congruence.
    + pose proof (beats_asym _ _ Hba) as Hnab.
      do 4 eexists. split; [by apply resolve_round_loss|].
      split; [by apply resolve_round_win|].
      rewrite outcome_win, outcome_loss. intuition congruence.
Qed.

Lemma swapped_moves_swap_winner_witness :
  ∃ m1 self1 m2 self2,
    resolve_round __init__ "pencil" "scissors" = Some (m1, self1) ∧
    resolve_round __init__ "scissors" "pencil" = Some (m2, self2) ∧
    (outcome m1 = Some ComputerWin ↔ outcome m2 = Some PlayerWin).
Proof.
  destruct (swapped_moves_swap_winner __init__ "pencil" "scissors" 0 0 0)
    as (m1 & self1 & m2 & self2 & H1 & H2 & _ & Hswap & _);
    [unfold MOVES; repeat constructor.. | reflexivity | reflexivity
    | reflexivity |].
  exists m1, self1, m2, self2. auto.
Defined.

(** X6. The sets of [WIN_RULES] hold moves only, so a round in which
    either side plays a string that is not one of the four moves, the two
    strings being different, is always given to the computer, whichever
    side the foreign string is on. *)
Theorem foreign_string_loses_for_player (self : t) (a b : string) (p c ti : Z) :
  a ≠ b → a ∉ MOVES ∨ b ∉ MOVES →
  score self !! "player" = Some p →
  score self !! "computer" = Some c →
  score self !! "ties" = Some ti →
  ∃ message self',
    resolve_round self a b = Some (message, self') ∧
    outcome message = Some ComputerWin ∧
    score self' !! "computer" = Some (c + 1) ∧
    score self' !! "player" = Some p ∧
    score self' !! "ties" = Some ti.
Proof.
  intros Hne Hforeign Hp Hc Hti.
  assert (Hnb : ¬ beats a b).
  { intros [Ha Hb]%beats_moves. by destruct Hforeign. }
  do 2 eexists. split; [by apply resolve_round_loss|].
  rewrite outcome_loss. simpl. by simplify_map_eq.
Qed.

Lemma foreign_string_loses_for_player_witness :
  ∃ message self',
    resolve_round __init__ "rock" "lizard" = Some (message, self') ∧
    outcome message = Some ComputerWin.
Proof.
  destruct (foreign_string_loses_for_player __init__ "rock" "lizard" 0 0 0)
    as (message & self' & Hr & Ho & _);
    [discriminate | right; apply (bool_decide_unpack _); vm_compute; exact I
    | reflexivity | reflexivity | reflexivity |].
  exists message, self'. auto.
Defined.

(** X7. Between two different moves the message never misreports: the
    move it names first, capitalised, beats the move it names second in
    the relation of [WIN_RULES], and "You win!" is said exactly when the
    first is the player's. *)
Theorem message_names_the_winner (self : t) (a b : string) (p c ti : Z) :
  a ∈ MOVES → b ∈ MOVES → a ≠ b →
  score self !! "player" = Some p →
  score self !! "computer" = Some c →
  score self !! "ties" = Some ti →
  ∃ message self' winner loser initial rest,
    resolve_round self a b = Some (message, self') ∧
    beats winner loser ∧
    winner = String initial rest ∧
    Py.title winner = String (Py.to_upper initial) rest ∧
    message = (if decide (winner = a) then "You win! " else "I win! ")
                ++ Py.title winner ++ " beats " ++ loser ++ "." ∧
    (winner = a ∧ loser = b ∨ winner = b ∧ loser = a).
Proof.
  intros Ha Hb Hne Hp Hc Hti.
  assert (Htitle : ∀ w, w ∈ MOVES →
            ∃ initial rest, w = String initial rest ∧
                            Py.title w = String (Py.to_upper initial) rest).
  { intros w Hw. unfold MOVES in Hw.
    repeat (apply elem_of_cons in Hw as [->|Hw]; [by do 2 eexists|]).
    by apply elem_of_nil in Hw. }
  destruct (beats_covers a b Ha Hb Hne) as [Hab|Hba].
  - destruct (Htitle a Ha) as (initial & rest & Hw & Ht).
    exists ("You win! " ++ Py.title a ++ " beats " ++ b ++ "."),
      {| score := <["player" := p + 1]> (score self) |}, a, b, initial, rest.
    split; [by apply resolve_round_win|].
    rewrite decide_True by done. by repeat split; try left.
  - destruct (Htitle b Hb) as (initial & rest & Hw & Ht).
    exists ("I win! " ++ Py.title b ++ " beats " ++ a ++ "."),
      {| score := <["computer" := c + 1]> (score self) |}, b, a, initial, rest.
    split; [apply resolve_round_loss; [done|by apply beats_asym|done]|].
    rewrite decide_False by congruence. by repeat split; try right.
Qed.

Lemma message_names_the_winner_witness :
  ∃ message self',
    resolve_round __init__ "paper" "pencil" = Some (message, self') ∧
    message = "I win! Pencil beats paper.".
Proof.
  destruct (message_names_the_winner __init__ "paper" "pencil" 0 0 0)
    as (message & self' & winner & loser & initial & rest & Hr & _);
    [unfold MOVES; repeat constructor.. | discriminate | reflexivity
    | reflexivity | reflexivity |].
  exists message, self'. split; [exact Hr|].
  vm_compute in Hr. by injection Hr as <- _.
Defined.

End GameRounds.

(** ** The running program *)

Section Running.
Import GestureRPSApp Debounce Loop.

Lemma observation_of_process (i : Tick) (r : GestureResult)
    (lms : option GestureRecognizer.Hand) :
  ret i = true →
  GestureRecognizer.process (multi_hand_landmarks i) = Some (r, lms) →
  observation i = Some (name r).
Proof. intros Hret Hp. unfold observation. by rewrite Hret, Hp. Qed.

Lemma observation_range (i : Tick) (g : string) :
  observation i = Some g → g ∈ GestureRPSGame.MOVES ∨ g = "unknown".
Proof.
  intros (_ & r & lms & Hp & <-)%observation_Some.
  by eapply process_range.
Qed.

(** What a call of [_handle_gesture] that resolves a round has done. *)
Lemma handle_gesture_commit_inv (rnd : nat) (r : GestureResult) (s s' : t) :
  name r ≠ "unknown" → 10 ≤ counted (name r) s →
  _handle_gesture rnd r s = Some s' →
  ∃ cm message p c ti,
    GestureRPSGame.get_computer_move rnd = Some cm ∧
    GestureRPSGame.resolve_round (game s) (name r) cm = Some (message, game s') ∧
    GestureRPSGame.score (game s') !! "player" = Some p ∧
    GestureRPSGame.score (game s') !! "computer" = Some c ∧
    GestureRPSGame.score (game s') !! "ties" = Some ti ∧
    labels s' = (Py.str p, Py.str c, Py.str ti) ∧
    last_gesture s' = "unknown" ∧ _gesture_frames s' = 0 ∧ _lockout s' = true ∧
    _lockout_after_id s' = Some (Tk.next_id (window s)) ∧
    window s' = (Tk.after 1800 Tk.cb_release_lockout (window s)).2 ∧
    status_var s' = "You played " ++ name r ++ ". I played " ++ cm ++ "."
                      ++ Py.nl ++ message.
Proof.
  intros Hr Hn. unfold _handle_gesture. rewrite decide_False by done.
  rewrite (accumulate_counted (name r) s). simpl _gesture_frames.
  rewrite (proj2 (Z.leb_le _ _)) by done.
  unfold _resolve_round.
  destruct (GestureRPSGame.get_computer_move rnd) as [cm|]; [|done]. simpl.
  destruct (GestureRPSGame.resolve_round _ _ _) as [[message game']|] eqn:Hres;
    [|done].
  simpl.
  destruct (GestureRPSGame.score game' !! "player") as [p|] eqn:Hp; [|done].
  simpl.
  destruct (GestureRPSGame.score game' !! "computer") as [c|] eqn:Hc; [|done].
  simpl.
  destruct (GestureRPSGame.score game' !! "ties") as [ti|] eqn:Hti; [|done].
  simpl. intros [= <-]. exists cm, message, p, c, ti. simpl.
  by repeat split.
Qed.

(** The five things a run of [_update_video] can have done. *)
Lemma update_video_inv (i : Tick) (s s' : t) :
  _update_video i s = Some s' →
  (* the camera gave no frame *)
  (ret i = false ∧ core s' = core s ∧ labels s' = labels s ∧
   _lockout_after_id s' = _lockout_after_id s ∧
   status_var s' = "Camera feed unavailable." ∧
   window s' = (Tk.after 500 Tk.cb_update_video (window s)).2) ∨
  (* the lock-out is on *)
  (ret i = true ∧ _lockout s = true ∧ core s' = core s ∧
   labels s' = labels s ∧ _lockout_after_id s' = _lockout_after_id s ∧
   status_var s' = status_var s ∧
   window s' = (Tk.after 30 Tk.cb_update_video (window s)).2) ∨
  (* no gesture in the frame *)
  (_lockout s = false ∧ observation i = Some "unknown" ∧
   core s' = (game s, "unknown", 0, false) ∧
   labels s' = labels s ∧ _lockout_after_id s' = _lockout_after_id s ∧
   window s' = (Tk.after 30 Tk.cb_update_video (window s)).2) ∨
  (* a gesture, below the threshold *)
  (∃ g, _lockout s = false ∧ observation i = Some g ∧ g ≠ "unknown" ∧
        counted g s < 10 ∧
        core s' = (game s, g, counted g s, false) ∧
        labels s' = labels s ∧ _lockout_after_id s' = _lockout_after_id s ∧
        status_var s' = status_var s ∧
        window s' = (Tk.after 30 Tk.cb_update_video (window s)).2) ∨
  (* a gesture that reaches the threshold: a round *)
  (∃ g cm message p c ti,
     _lockout s = false ∧ observation i = Some g ∧ g ≠ "unknown" ∧
     10 ≤ counted g s ∧
     GestureRPSGame.get_computer_move (rnd i) = Some cm ∧
     GestureRPSGame.resolve_round (game s) g cm = Some (message, game s') ∧
     GestureRPSGame.score (game s') !! "player" = Some p ∧
     GestureRPSGame.score (game s') !! "computer" = Some c ∧
     GestureRPSGame.score (game s') !! "ties" = Some ti ∧
     labels s' = (Py.str p, Py.str c, Py.str ti) ∧
     last_gesture s' = "unknown" ∧ _gesture_frames s' = 0 ∧
     _lockout s' = true ∧
     _lockout_after_id s' = Some (Tk.next_id (window s)) ∧
     window s' = (Tk.after 30 Tk.cb_update_video
                    (Tk.after 1800 Tk.cb_release_lockout (window s)).2).2 ∧
     status_var s' = "You played " ++ g ++ ". I played " ++ cm ++ "."
                       ++ Py.nl ++ message).
Proof.
  unfold _update_video.
  destruct (ret i) eqn:Hret; simpl negb; cbv iota.
  2:{ intros [= <-]. left. by repeat split. }
  destruct (GestureRecognizer.process _) as [[r lms]|] eqn:Hproc; [|done].
  simpl. pose proof (observation_of_process i r lms Hret Hproc) as Hobs.
  destruct (_lockout s) eqn:Hlock; simpl negb; cbv iota.
  { intros [= <-]. right; left. unfold core. simpl. rewrite Hlock.
    by repeat split. }
  destruct (_handle_gesture (rnd i) r s) as [s1|] eqn:Hh; [|done].
  intros [= <-].
  destruct (decide (name r = "unknown")) as [Hu|Hu].
  { rewrite handle_gesture_unknown in Hh by done. injection Hh as <-.
    right; right; left. rewrite Hu in Hobs. unfold core. simpl.
    rewrite Hlock. by repeat split. }
  destruct (decide (counted (name r) s < 10)) as [Hn|Hn].
  { rewrite handle_gesture_accumulate in Hh by done. injection Hh as <-.
    right; right; right; left. exists (name r). unfold core. simpl.
    rewrite Hlock. by repeat split. }
  right; right; right; right.
  destruct (handle_gesture_commit_inv (rnd i) r s s1 Hu) as
    (cm & message & p & c & ti & Hcm & Hres & Hp & Hc & Hti & Hlab & Hl & Hf
     & Hk & Hid & Hw & Hst); [lia|done|].
  exists (name r), cm, message, p, c, ti. simpl. rewrite Hw.
  repeat split; try done. lia.
Qed.

Lemma core_eq (s s' : t) :
  core s' = core s →
  game s' = game s ∧ last_gesture s' = last_gesture s ∧
  _gesture_frames s' = _gesture_frames s ∧ _lockout s' = _lockout s.
Proof. unfold core. intros [= -> -> -> ->]. done. Qed.

Lemma labels_eq (s s' : t) :
  labels s' = labels s → game s' = game s →
  labels_show_score s → labels_show_score s'.
Proof.
  intros Hl Hg (p & c & ti & Hp & Hc & Hti & Hlab).
  exists p, c, ti. rewrite Hl, Hg. done.
Qed.

(** Registering one more callback keeps what [Steady] says of the
    identifier of the release. *)
Lemma after_id_after (ms : Z) (cb0 : Tk.callback) (w : Tk.t) (id : nat) :
  (id < Tk.next_id w)%nat ∧
  (∀ due cb, Tk.pending w !! id = Some (due, cb) → cb = Tk.cb_release_lockout) →
  (id < Tk.next_id (Tk.after ms cb0 w).2)%nat ∧
  (∀ due cb, Tk.pending (Tk.after ms cb0 w).2 !! id = Some (due, cb) →
             cb = Tk.cb_release_lockout).
Proof.
  intros [Hlt Hcb]. simpl. split; [lia|].
  intros due cb [[? _]|[_ Hpend]]%lookup_insert_Some; [lia|].
  by eapply Hcb.
Qed.

Lemma steady_fresh : Steady fresh.
Proof.
  split; simpl; try done.
  - exists 0, 0, 0. by repeat split.
  - split; [done|by right].
Qed.

Lemma steady_update_video (i : Tick) (s s' : t) :
  Inv s → Steady s → _update_video i s = Some s' → Steady s'.
Proof.
  intros HI [Hid Hlab [Hzero Hcand]] Hs'.
  apply update_video_inv in Hs' as
    [(_ & Hcore & Hl & Hi & _ & Hw)
    |[(_ & _ & Hcore & Hl & Hi & _ & Hw)
    |[(_ & _ & Hcore & Hl & Hi & Hw)
    |[(g & _ & Hobs & Hg & Hn & Hcore & Hl & Hi & _ & Hw)
    |(g & cm & message & p & c & ti & _ & Hobs & Hg & _ & _ & _ & Hp & Hc
      & Hti & Hl & Hlast & Hfr & _ & Hi & Hw & _)]]]].
  - apply core_eq in Hcore as (Hg & Hlast & Hfr & _). split.
    + intros id Hid'. rewrite Hw. apply after_id_after, Hid. congruence.
    + by apply (labels_eq s).
    + by rewrite Hlast, Hfr.
  - apply core_eq in Hcore as (Hg & Hlast & Hfr & _). split.
    + intros id Hid'. rewrite Hw. apply after_id_after, Hid. congruence.
    + by apply (labels_eq s).
    + by rewrite Hlast, Hfr.
  - injection Hcore as Hg Hlast Hfr _. split.
    + intros id Hid'. rewrite Hw. apply after_id_after, Hid. congruence.
    + by apply (labels_eq s).
    + rewrite Hlast, Hfr. split; [done|by right].
  - injection Hcore as Hgame Hlast Hfr _. split.
    + intros id Hid'. rewrite Hw. apply after_id_after, Hid. congruence.
    + by apply (labels_eq s).
    + rewrite Hlast, Hfr. pose proof (inv_frames _ HI).
      split.
      * split; [done|]. unfold counted. case_decide; lia.
      * destruct (observation_range i g Hobs); [by left|done].
  - split.
    + intros id Hid'. rewrite Hi in Hid'. injection Hid' as <-.
      rewrite Hw. simpl. split; [lia|].
      intros due cb [[? _]|[_ Hpend]]%lookup_insert_Some; [lia|].
      apply lookup_insert_Some in Hpend as [[_ [= _ <-]]|[? _]]; done.
    + by exists p, c, ti.
    + rewrite Hlast, Hfr. split; [done|by right].
Qed.

Lemma steady_take (id : nat) (s : t) :
  Steady s → Steady (set_window (Tk.take id (window s)) s).
Proof.
  intros [Hid Hlab Hcand]. split; simpl; try done.
  intros rid Hrid. destruct (Hid rid Hrid) as [Hlt Hcb]. split; [done|].
  intros due cb [_ Hpend]%lookup_delete_Some. by eapply Hcb.
Qed.

Lemma steady_release (s : t) : Steady s → Steady (_release_lockout s).
Proof. intros []. split; done. Qed.

Lemma steady_reset (s : t) : Steady s → Steady (_reset_game s).
Proof.
  intros [Hid Hlab Hcand]. unfold _reset_game.
  destruct (_lockout_after_id s) as [rid|] eqn:Hrid; split; simpl;
    try done; try (by exists 0, 0, 0); try (split; [done|by right]).
  by rewrite Hrid.
Qed.

Lemma steady_sleep (dt : Z) (s : t) :
  Steady s → Steady (set_window (Tk.sleep dt (window s)) s).
Proof. intros []. split; done. Qed.

Lemma steady_step (e : event) (s s' : t) :
  Inv s → Steady s → step e s = Some s' → Steady s'.
Proof.
  intros HI HS. destruct e as [id i| |dt]; simpl.
  - destruct (Tk.due_first id (window s)) as [cb|] eqn:Hdue; [|done]. simpl.
    apply due_first_Some in Hdue as (due & Hpend & _).
    destruct cb.
    + apply steady_update_video; [by eapply inv_take_tick|by apply steady_take].
    + intros [= <-]. by apply steady_release, steady_take.
  - intros [= <-]. by apply steady_reset.
  - destruct (0 <=? dt); [|done]. intros [= <-]. by apply steady_sleep.
Qed.

Lemma steady_reachable (s : t) : reachable s → Steady s.
Proof.
  intros (i & es & Hrun). unfold __init__ in Hrun.
  destruct (_update_video i fresh) as [s0|] eqn:Hinit; [|done]. simpl in Hrun.
  assert (HI0 : Inv s0) by (eapply inv_update_video; [apply inv_fresh|done]).
  assert (HS0 : Steady s0).
  { eapply steady_update_video; [apply inv_fresh|apply steady_fresh|done]. }
  clear Hinit. revert s0 HI0 HS0 Hrun.
  induction es as [|e es IH]; intros s0 HI0 HS0; simpl.
  - by intros [= <-].
  - destruct (step e s0) as [s1|] eqn:Hstep; [|done]. simpl.
    apply IH; [by eapply inv_step|by eapply steady_step].
Qed.

(** *** The video loop is scheduled exactly once *)

Lemma one_tick_after (ms : Z) (s s' : t) :
  no_tick s → window s' = (Tk.after ms Tk.cb_update_video (window s)).2 →
  one_tick s'.
Proof.
  intros Hno Hw. exists (Tk.next_id (window s)). unfold tick_pending.
  rewrite Hw. simpl. split.
  - eexists. apply lookup_insert_eq.
  - intros id' [due [[? _]|[_ Hpend]]%lookup_insert_Some]; [done|].
    destruct (Hno id'). by exists due.
Qed.

Lemma one_tick_update_video (i : Tick) (s s' : t) :
  no_tick s → _update_video i s = Some s' → one_tick s'.
Proof.
  intros Hno Hs'.
  apply update_video_inv in Hs' as
    [(_ & _ & _ & _ & _ & Hw)
    |[(_ & _ & _ & _ & _ & _ & Hw)
    |[(_ & _ & _ & _ & _ & Hw)
    |[(g & _ & _ & _ & _ & _ & _ & _ & _ & Hw)
    |(g & cm & message & p & c & ti & _ & _ & _ & _ & _ & _ & _ & _
      & _ & _ & _ & _ & _ & _ & Hw & _)]]]];
    try by eapply one_tick_after.
  exists (S (Tk.next_id (window s))). unfold tick_pending.
  rewrite Hw. simpl. split.
  - eexists. apply lookup_insert_eq.
  - intros id' [due [[? _]|[_ Hpend]]%lookup_insert_Some]; [done|].
    apply lookup_insert_Some in Hpend as [[_ [=]]|[_ Hpend]].
    destruct (Hno id'). by exists due.
Qed.

Lemma no_tick_take (id : nat) (due : Z) (s : t) :
  one_tick s → Tk.pending (window s) !! id = Some (due, Tk.cb_update_video) →
  no_tick (set_window (Tk.take id (window s)) s).
Proof.
  intros (id0 & _ & Honly) Hpend id' [due' Hpend']. simpl in Hpend'.
  apply lookup_delete_Some in Hpend' as [Hne Hpend'].
  assert (id = id0) by (apply Honly; by exists due).
  assert (id' = id0) by (apply Honly; by exists due').
  congruence.
Qed.

(** Taking anything but a video tick off the queue leaves the tick. *)
Lemma one_tick_delete (id : nat) (s s' : t) :
  one_tick s → ¬ tick_pending s id →
  Tk.pending (window s') = delete id (Tk.pending (window s)) →
  one_tick s'.
Proof.
  intros (id0 & [due0 Hpend0] & Honly) Hnot Hw. exists id0.
  unfold tick_pending. rewrite Hw. split.
  - exists due0. rewrite lookup_delete_ne; [done|].
    intros ->. destruct Hnot. by exists due0.
  - intros id' [due' [_ Hpend']%lookup_delete_Some].
    apply Honly. by exists due'.
Qed.

Lemma one_tick_step (e : event) (s s' : t) :
  Steady s → one_tick s → step e s = Some s' → one_tick s'.
Proof.
  intros HS Hone. destruct e as [id i| |dt]; simpl.
  - destruct (Tk.due_first id (window s)) as [cb|] eqn:Hdue; [|done]. simpl.
    apply due_first_Some in Hdue as (due & Hpend & _).
    destruct cb.
    + apply one_tick_update_video. by eapply no_tick_take.
    + intros [= <-]. apply (one_tick_delete id s); [done| |done].
      intros [due' Hpend']. congruence.
  - intros [= <-]. unfold _reset_game.
    destruct (_lockout_after_id s) as [rid|] eqn:Hrid.
    + apply (one_tick_delete rid s); [done| |done].
      intros [due' Hpend'].
      destruct (steady_after_id _ HS rid Hrid) as [_ Hcb].
      by apply Hcb in Hpend'.
    + destruct Hone as (id0 & Hpend0 & Honly). by exists id0.
  - destruct (0 <=? dt); [|done]. intros [= <-].
    destruct Hone as (id0 & Hpend0 & Honly). by exists id0.
Qed.

Lemma one_tick_reachable (s : t) : reachable s → one_tick s.
Proof.
  intros (i & es & Hrun). unfold __init__ in Hrun.
  destruct (_update_video i fresh) as [s0|] eqn:Hinit; [|done]. simpl in Hrun.
  assert (HI0 : Inv s0) by (eapply inv_update_video; [apply inv_fresh|done]).
  assert (HS0 : Steady s0).
  { eapply steady_update_video; [apply inv_fresh|apply steady_fresh|done]. }
  assert (H0 : one_tick s0).
  { eapply one_tick_update_video; [|done]. intros id [due Hpend]. done. }
  clear Hinit. revert s0 HI0 HS0 H0 Hrun.
  induction es as [|e es IH]; intros s0 HI0 HS0 H0; simpl.
  - by intros [= <-].
  - destruct (step e s0) as [s1|] eqn:Hstep; [|done]. simpl.
    apply IH; [by eapply inv_step|by eapply steady_step|by eapply one_tick_step].
Qed.

(** X8. In every state the program reaches, exactly one run of
    [_update_video] is waiting in the [after] queue: the video loop never
    stops, not after a camera failure, a round or a reset (whose
    [after_cancel] never hits a video tick, even when the identifier it
    holds is that of a release long run), and never runs twice over. *)
Theorem video_loop_scheduled_once (s : t) :
  reachable s →
  ∃ id due,
    Tk.pending (window s) !! id = Some (due, Tk.cb_update_video) ∧
    (∀ id' due', Tk.pending (window s) !! id' = Some (due', Tk.cb_update_video) →
                 id' = id) ∧
    (∀ rid, _lockout_after_id s = Some rid → rid ≠ id) ∧
    ∃ id1 due1,
      Tk.pending (window (_reset_game s)) !! id1
      = Some (due1, Tk.cb_update_video).
Proof.
  intros Hreach.
  destruct (one_tick_reachable s Hreach) as (id & [due Hpend] & Honly).
  pose proof (steady_reachable s Hreach) as HS.
  exists id, due. split; [done|]. split; [|split].
  - intros id' due' Hpend'. apply Honly. by exists due'.
  - intros rid Hrid ->.
    destruct (steady_after_id _ HS id Hrid) as [_ Hcb].
    by apply Hcb in Hpend.
  - assert (Hreset : one_tick (_reset_game s)).
    { apply (one_tick_step Reset s); [done| |done].
      exists id. split; [by exists due|done]. }
    destruct Hreset as (id1 & [due1 Hpend1] & _). by exists id1, due1.
Qed.

Lemma video_loop_scheduled_once_witness :
  ∃ s id due, stalled = Some s ∧
    Tk.pending (window s) !! id = Some (due, Tk.cb_update_video).
Proof.
  destruct stalled_state as (s & Hs & Hreach & _).
  destruct (video_loop_scheduled_once s Hreach) as (id & due & Hpend & _).
  exists s, id, due. split; [exact Hs | exact Hpend].
Defined.

(** X9. In every state the program reaches, the three score labels show
    the three counters of the game: no round and no reset leaves a label
    behind. *)
Theorem labels_always_show_score (s : t) :
  reachable s →
  ∃ p c ti,
    GestureRPSGame.score (game s) !! "player" = Some p ∧
    GestureRPSGame.score (game s) !! "computer" = Some c ∧
    GestureRPSGame.score (game s) !! "ties" = Some ti ∧
    0 ≤ p ∧ 0 ≤ c ∧ 0 ≤ ti ∧
    _player_score_var s = Py.str p ∧
    _computer_score_var s = Py.str c ∧
    _tie_score_var s = Py.str ti.
Proof.
  intros Hreach.
  destruct (steady_labels _ (steady_reachable s Hreach))
    as (p & c & ti & Hp & Hc & Hti & Hlab).
  destruct (inv_counters _ (inv_reachable s Hreach))
    as (p' & c' & ti' & Hp' & Hc' & Hti' & ? & ? & ?).
  assert (p' = p) as -> by congruence.
  assert (c' = c) as -> by congruence.
  assert (ti' = ti) as -> by congruence.
  exists p, c, ti. unfold labels in Hlab. injection Hlab as -> -> ->.
  by repeat split.
Qed.

Lemma labels_always_show_score_witness :
  ∃ s p c ti, stalled = Some s ∧
    GestureRPSGame.score (game s) !! "computer" = Some c ∧
    _computer_score_var s = Py.str c ∧ _player_score_var s = Py.str p ∧
    _tie_score_var s = Py.str ti.
Proof.
  destruct stalled_state as (s & Hs & Hreach & _).
  destruct (labels_always_show_score s Hreach)
    as (p & c & ti & _ & Hc & _ & _ & _ & _ & Hlp & Hlc & Hlt).
  exists s, p, c, ti. auto.
Defined.

(** X10. In every state the program reaches, the count is between 0 and 9,
    the candidate is one of the four moves or "unknown", it is "unknown"
    exactly when the count is 0, and a locked debouncer is idle. *)
Theorem debouncer_stays_in_range (s : t) :
  reachable s →
  0 ≤ _gesture_frames s ≤ 9 ∧
  (last_gesture s ∈ GestureRPSGame.MOVES ∨ last_gesture s = "unknown") ∧
  (last_gesture s = "unknown" ↔ _gesture_frames s = 0) ∧
  (_lockout s = true → last_gesture s = "unknown" ∧ _gesture_frames s = 0).
Proof.
  intros Hreach.
  pose proof (inv_reachable s Hreach) as HI.
  destruct (steady_candidate _ (steady_reachable s Hreach)) as [Hzero Hcand].
  split; [apply (inv_frames _ HI)|]. split; [done|]. split; [done|].
  apply (inv_locked_idle _ HI).
Qed.

Lemma debouncer_stays_in_range_witness :
  ∃ s, just_locked = Some s ∧ 0 ≤ _gesture_frames s ≤ 9.
Proof.
  assert (Hrun : (s ← just_locked; Some (_gesture_frames s)) = Some 0).
  { vm_compute. reflexivity. }
  apply bind_Some in Hrun as (s & Hs & _). exists s. split; [exact Hs|].
  apply debouncer_stays_in_range. exists (rock 1), ten_rocks. exact Hs.
Defined.

(** X11. In every state the program reaches, the debouncer is locked
    exactly when a release of the lock-out is waiting in the [after] queue,
    at most one release is waiting, and it is the one [_lockout_after_id]
    names: a locked program always has its way out scheduled, and an
    unlocked one has no release left that could cut a later lock-out
    short. *)
Theorem locked_iff_release_pending (s : t) :
  reachable s →
  (_lockout s = true ↔ release_pending s) ∧
  (∀ id due, Tk.pending (window s) !! id = Some (due, Tk.cb_release_lockout) →
             _lockout_after_id s = Some id ∧
             cooldown_deadline s = Some due) ∧
  (∀ id id' due due',
     Tk.pending (window s) !! id = Some (due, Tk.cb_release_lockout) →
     Tk.pending (window s) !! id' = Some (due', Tk.cb_release_lockout) →
     id = id').
Proof.
  intros HI%inv_reachable. split; [split|split].
  - intros Hlock.
    destruct (inv_locked_release _ HI Hlock) as (id & due & _ & Hpend).
    by exists id, due.
  - intros (id & due & Hpend).
    by apply (inv_release_named _ HI) in Hpend as [Hlock _].
  - intros id due Hpend.
    pose proof (inv_release_named _ HI _ _ Hpend) as [_ Hid].
    split; [done|]. apply cooldown_deadline_Some. by exists id.
  - intros id id' due due' Hpend Hpend'.
    apply (inv_release_named _ HI) in Hpend as [_ Hid].
    apply (inv_release_named _ HI) in Hpend' as [_ Hid'].
    congruence.
Qed.

Lemma locked_iff_release_pending_witness :
  ∃ s, stalled = Some s ∧ (_lockout s = true ↔ release_pending s).
Proof.
  destruct stalled_state as (s & Hs & Hreach & _).
  destruct (locked_iff_release_pending s Hreach) as [Hiff _].
  exists s. split; [exact Hs | exact Hiff].
Defined.

(** *** Rounds and time *)

(** A step of the main loop, other than a reset, that changes the game has
    resolved a round and started the cool-down. *)
Lemma step_round_deadline (e : event) (s s1 : t) :
  Inv s → e ≠ Reset → step e s = Some s1 → game s1 ≠ game s →
  _lockout s1 = true ∧
  cooldown_deadline s1 = Some (Tk.now (window s1) + 1800).
Proof.
  intros HI Hreset Hstep Hgame.
  destruct e as [id i| |dt]; [| done |]; simpl in Hstep.
  - destruct (Tk.due_first id (window s)) as [cb|] eqn:Hdue; [|done].
    simpl in Hstep. destruct cb; [|by injection Hstep as <-].
    apply update_video_inv in Hstep as
      [(_ & Hcore & _)
      |[(_ & _ & Hcore & _)
      |[(_ & _ & Hcore & _)
      |[(g & _ & _ & _ & _ & Hcore & _)
      |(g & cm & message & p & c & ti & _ & _ & _ & _ & _ & _ & _ & _
        & _ & _ & _ & _ & Hlock & Hid & Hw & _)]]]];
      try (by injection Hcore as Hg _ _ _; destruct Hgame).
    split; [done|]. apply cooldown_deadline_Some.
    eexists. split; [exact Hid|]. rewrite Hw. simpl.
    rewrite lookup_insert_ne by lia. by rewrite lookup_insert_eq.
  - destruct (0 <=? dt); [|done]. by injection Hstep as <-.
Qed.

(** X12. Rounds are at least 1800 ms apart. If a step of the main loop of
    the running program resolves a round, then no run that follows it and
    has no reset resolves another round before 1800 ms have passed. *)
Theorem rounds_are_1800ms_apart (e : event) (es : list event) (s s1 s2 : t) :
  reachable s → e ≠ Reset → step e s = Some s1 → game s1 ≠ game s →
  Reset ∉ es → run es s1 = Some s2 → game s2 ≠ game s1 →
  Tk.now (window s1) + 1800 ≤ Tk.now (window s2).
Proof.
  intros HI%inv_reachable Hreset Hstep Hgame Hresets Hrun Hgame2.
  destruct (step_round_deadline e s s1 HI Hreset Hstep Hgame) as [Hlock Hdl].
  destruct (Z.le_gt_cases (Tk.now (window s1) + 1800) (Tk.now (window s2)))
    as [Hle|Hlt]; [done|].
  pose proof (inv_step e s s1 HI Hstep) as HI1.
  destruct (run_locked es s1 s2 _ HI1 Hlock Hdl Hresets Hrun) as (_ & Hg & _);
    [lia|]. by destruct Hgame2.
Qed.

(** A step of the main loop, other than a reset, while the count is too
    low for the threshold. *)
Lemma step_below_threshold (e : event) (s s' : t) :
  Inv s → e ≠ Reset → step e s = Some s' →
  _gesture_frames s + Z.of_nat (timers [e]) < 10 →
  game s' = game s ∧
  _gesture_frames s' ≤ _gesture_frames s + Z.of_nat (timers [e]).
Proof.
  intros HI Hreset Hstep Hn. pose proof (inv_frames _ HI) as Hfr.
  destruct e as [id i| |dt]; [| done |]; simpl in *.
  - destruct (Tk.due_first id (window s)) as [cb|] eqn:Hdue; [|done].
    simpl in Hstep.
    destruct cb; [|injection Hstep as <-; simpl; split; [done|lia]].
    apply update_video_inv in Hstep as
      [(_ & Hcore & _)
      |[(_ & _ & Hcore & _)
      |[(_ & _ & Hcore & _)
      |[(g & _ & _ & _ & _ & Hcore & _)
      |(g & cm & message & p & c & ti & _ & _ & _ & Hc & _)]]]];
      try (injection Hcore as -> _ ->; simpl in *;
           split; [done|unfold counted; simpl; try case_decide; lia]).
    unfold counted in Hc. simpl in Hc. case_decide; lia.
  - destruct (0 <=? dt); [|done]. injection Hstep as <-. simpl.
    split; [done|lia].
Qed.

(** X13. A round needs its ten frames: of a reachable state with count
    [n], no run of the main loop without a reset that runs fewer than
    [10 - n] callbacks changes the game. *)
Theorem too_few_frames_no_round (es : list event) (s s' : t) :
  reachable s → Reset ∉ es → run es s = Some s' →
  _gesture_frames s + Z.of_nat (timers es) < 10 →
  game s' = game s.
Proof.
  intros HI%inv_reachable Hresets Hrun Hn.
  cut (game s' = game s ∧
       _gesture_frames s' ≤ _gesture_frames s + Z.of_nat (timers es));
    [by intros [? _]|].
  revert s HI Hresets Hrun Hn.
  induction es as [|e es IH]; intros s HI Hresets Hrun Hn; simpl in Hrun.
  - injection Hrun as <-. simpl. split; [done|lia].
  - destruct (step e s) as [s1|] eqn:Hstep; [|done]. simpl in Hrun.
    apply not_elem_of_cons in Hresets as [He Hresets].
    assert (Hsplit : timers (e :: es) = (timers [e] + timers es)%nat).
    { by destruct e. }
    destruct (step_below_threshold e s s1 HI (not_eq_sym He) Hstep)
      as [Hg1 Hf1]; [lia|].
    destruct (IH s1 (inv_step e s s1 HI Hstep) Hresets Hrun) as [Hg' Hf'];
      [lia|].
    split; [congruence|lia].
Qed.

Lemma frames_no_reset (i : Tick) (first count : nat) :
  Reset ∉ frames i first count.
Proof.
  revert first. induction count as [|count IH]; intros first.
  - apply not_elem_of_nil.
  - change (frames i first (S count))
      with (Sleep 30 :: Timer first i :: frames i (S first) count).
    apply not_elem_of_cons. split; [discriminate|].
    apply not_elem_of_cons. split; [discriminate|]. apply IH.
Qed.

Lemma too_few_frames_no_round_witness :
  ∃ s s', __init__ (rock 1) = Some s ∧
          run (frames (rock 1) 0 8) s = Some s' ∧ game s' = game s.
Proof.
  assert (Hrun :
    (s ← __init__ (rock 1); s' ← run (frames (rock 1) 0 8) s;
     Some (_gesture_frames s)) = Some 1).
  { vm_compute. reflexivity. }
  apply bind_Some in Hrun as (s & Hs & Hrun).
  apply bind_Some in Hrun as (s' & Hs' & Hfr). injection Hfr as Hfr.
  exists s, s'. split; [exact Hs|]. split; [exact Hs'|].
  apply (too_few_frames_no_round (frames (rock 1) 0 8) s s').
  - exists (rock 1), []. rewrite Hs. reflexivity.
  - apply frames_no_reset.
  - exact Hs'.
  - rewrite Hfr. vm_compute. reflexivity.
Defined.

Lemma rounds_are_1800ms_apart_witness :
  ∃ s s1 s2, before_round = Some s ∧
    step (Timer 8 (rock 1)) s = Some s1 ∧ run next_round s1 = Some s2 ∧
    Tk.now (window s1) + 1800 ≤ Tk.now (window s2).
Proof.
  assert (Hfacts :
    (s ← before_round; s1 ← step (Timer 8 (rock 1)) s; s2 ← run next_round s1;
     Some (rounds s, rounds s1, rounds s2)) = Some (Some 0, Some 1, Some 2)).
  { vm_compute. reflexivity. }
  apply bind_Some in Hfacts as (s & Hs & Hfacts).
  apply bind_Some in Hfacts as (s1 & Hs1 & Hfacts).
  apply bind_Some in Hfacts as (s2 & Hs2 & Hfacts).
  injection Hfacts as Hr Hr1 Hr2.
  exists s, s1, s2. split; [exact Hs|]. split; [exact Hs1|]. split; [exact Hs2|].
  apply (rounds_are_1800ms_apart (Timer 8 (rock 1)) next_round s s1 s2).
  - exists (rock 1), (frames (rock 1) 0 8 ++ [Sleep 30])%list. exact Hs.
  - discriminate.
  - exact Hs1.
  - intros Hg. unfold rounds in Hr, Hr1. rewrite Hg, Hr in Hr1. discriminate.
  - unfold next_round. simpl app.
    apply not_elem_of_cons. split; [discriminate|].
    apply not_elem_of_cons. split; [discriminate|].
    apply not_elem_of_cons. split; [discriminate|]. apply frames_no_reset.
  - exact Hs2.
  - intros Hg. unfold rounds in Hr1, Hr2. rewrite Hg, Hr1 in Hr2. discriminate.
Defined.

(** *** What decides the rounds *)

(** [_update_video] reads the game, the candidate, the count and the lock,
    and nothing else of the application, to decide what they become. *)
Lemma update_video_core (i : Tick) (s1 s2 : t) :
  core s1 = core s2 →
  core <$> _update_video i s1 = core <$> _update_video i s2.
Proof.
  destruct s1, s2. unfold core. simpl. intros [= -> -> -> ->].
  unfold _update_video. destruct (ret i); simpl; [|done].
  destruct (GestureRecognizer.process _) as [[r lms]|]; simpl; [|done].
  destruct _lockout1; simpl; [done|].
  unfold _handle_gesture. simpl. case_decide; simpl; [done|].
  case_decide; simpl; [|done].
  destruct (10 <=? _); simpl; [|done].
  unfold _resolve_round. simpl.
  destruct (GestureRPSGame.get_computer_move _); simpl; [|done].
  destruct (GestureRPSGame.resolve_round _ _ _) as [[message game']|];
    simpl; [|done].
  repeat (destruct (_ !! _); simpl; [|done]). done.
Qed.

Lemma feed_core (ticks : list Tick) (s1 s2 : t) :
  core s1 = core s2 → core <$> feed ticks s1 = core <$> feed ticks s2.
Proof.
  revert s1 s2. induction ticks as [|i ticks IH]; intros s1 s2 Hcore; simpl.
  - by rewrite Hcore.
  - pose proof (update_video_core i s1 s2 Hcore) as Hstep.
    destruct (_update_video i s1) as [s1'|], (_update_video i s2) as [s2'|];
      simpl in *; try done.
    apply IH. congruence.
Qed.

(** X14. The rounds do not depend on the labels, the status line or the
    [after] queue: two applications that agree on the game, the candidate,
    the count and the lock agree on them after any frames, and one raises
    exactly when the other does. *)
Theorem core_decides_rounds (ticks : list Tick) (s1 s2 : t) :
  core s1 = core s2 →
  core <$> feed ticks s1 = core <$> feed ticks s2 ∧
  rounds <$> feed ticks s1 = rounds <$> feed ticks s2 ∧
  (is_Some (feed ticks s1) ↔ is_Some (feed ticks s2)).
Proof.
  intros Hcore. pose proof (feed_core ticks s1 s2 Hcore) as Hfeed.
  destruct (feed ticks s1) as [s1'|], (feed ticks s2) as [s2'|];
    simpl in *; try done.
  injection Hfeed as Hg Hl Hf Hk.
  split; [unfold core; by rewrite Hg, Hl, Hf, Hk|]. split; [|done].
  unfold rounds. by rewrite Hg.
Qed.

Lemma core_decides_rounds_witness :
  rounds <$> feed (replicate 10 (paper 1)) (set_status "Ready" fresh)
  = rounds <$> feed (replicate 10 (paper 1)) fresh.
Proof.
  destruct (core_decides_rounds (replicate 10 (paper 1))
              (set_status "Ready" fresh) fresh) as (_ & Hr & _);
    [reflexivity|]. exact Hr.
Defined.

(** X15. A failed read of the camera is invisible to the game: for any
    frames, the game, the candidate, the count and the lock end as they do
    when the ticks on which the camera gave nothing are left out, so a
    failure in the middle of a gesture does not cost the frames counted. *)
Theorem camera_failures_change_nothing (ticks : list Tick) (s : t) :
  core <$> feed ticks s
  = core <$> feed (filter (λ i, ret i = true) ticks) s.
Proof.
  revert s. induction ticks as [|i ticks IH]; intros s; [done|].
  rewrite filter_cons. destruct (decide (ret i = true)) as [Hret|Hret].
  - simpl. destruct (_update_video i s) as [s1|]; simpl; [apply IH|done].
  - apply not_true_is_false in Hret.
    assert (Hfail : ∃ s1, _update_video i s = Some s1 ∧ core s1 = core s).
    { unfold _update_video. rewrite Hret. simpl. by eexists. }
    destruct Hfail as (s1 & Hs1 & Hcore).
    simpl. rewrite Hs1. simpl. rewrite IH. by apply feed_core.
Qed.

(** X16. The running program resolves rounds between moves only. A run of
    [_update_video] that changes the game has seen the tenth frame in a
    row of one of the four moves, unlocked, has drawn one of the four moves
    for the computer, has made one call of [resolve_round] on the two, for
    which [WIN_RULES] has an entry, and has locked the debouncer. *)
Theorem round_only_between_moves (i : Tick) (s s' : t) :
  _update_video i s = Some s' → game s' ≠ game s →
  ∃ g cm message,
    observation i = Some g ∧ g ∈ GestureRPSGame.MOVES ∧
    GestureRPSGame.get_computer_move (rnd i) = Some cm ∧
    cm ∈ GestureRPSGame.MOVES ∧
    is_Some (GestureRPSGame.WIN_RULES !! g) ∧
    GestureRPSGame.resolve_round (game s) g cm = Some (message, game s') ∧
    10 ≤ counted g s ∧ _lockout s = false ∧ _lockout s' = true ∧
    status_var s' = "You played " ++ g ++ ". I played " ++ cm ++ "."
                      ++ Py.nl ++ message.
Proof.
  intros Hs' Hgame.
  apply update_video_inv in Hs' as
    [(_ & Hcore & _)
    |[(_ & _ & Hcore & _)
    |[(_ & _ & Hcore & _)
    |[(g & _ & _ & _ & _ & Hcore & _)
    |(g & cm & message & p & c & ti & Hlock & Hobs & Hg & Hn & Hcm & Hres
      & _ & _ & _ & _ & _ & _ & Hlock' & _ & _ & Hst)]]]];
    try (by injection Hcore as Hg _ _ _; destruct Hgame).
  assert (Hmove : g ∈ GestureRPSGame.MOVES).
  { by destruct (observation_range i g Hobs). }
  exists g, cm, message. split_and!; try done.
  - destruct (get_computer_move_total (rnd i)) as (cm' & Hcm' & Hin).
    congruence.
  - rewrite win_rules_lookup. unfold GestureRPSGame.MOVES in Hmove.
    repeat (apply elem_of_cons in Hmove as [->|Hmove]; [by eexists|]).
    by apply elem_of_nil in Hmove.
Qed.

Lemma round_only_between_moves_witness :
  ∃ s s' g, feed (replicate 9 (rock 2)) fresh = Some s ∧
            _update_video (rock 2) s = Some s' ∧
            observation (rock 2) = Some g ∧ g ∈ GestureRPSGame.MOVES.
Proof.
  assert (Hfacts :
    (s ← feed (replicate 9 (rock 2)) fresh; s' ← _update_video (rock 2) s;
     Some (rounds s, rounds s')) = Some (Some 0, Some 1)).
  { vm_compute. reflexivity. }
  apply bind_Some in Hfacts as (s & Hs & Hfacts).
  apply bind_Some in Hfacts as (s' & Hs' & Hfacts).
  injection Hfacts as Hr Hr'.
  destruct (round_only_between_moves (rock 2) s s' Hs')
    as (g & cm & message & Hobs & Hg & _).
  - intros Hg. unfold rounds in Hr, Hr'. rewrite Hg, Hr in Hr'. discriminate.
  - exists s, s', g. auto.
Defined.

(** X17. Another gesture starts the count again. After up to 9 frames of
    a move [g], a frame of a different move [g'] resolves no round and
    leaves [g'] as the candidate with count 1: the frames of [g] are
    lost. *)
Theorem other_gesture_restarts_count (s : t) (g g' : string)
    (ticks : list Tick) (k : Tick) :
  _lockout s = false → g ≠ "unknown" → g' ≠ "unknown" → g' ≠ g →
  last_gesture s ≠ g → (0 < length ticks < 10)%nat →
  Forall (λ i, observation i = Some g) ticks → observation k = Some g' →
  ∃ s', feed (ticks ++ [k]) s = Some s' ∧ game s' = game s ∧
        debounce s' = (g', 1, false).
Proof.
  intros Hlock Hg Hg' Hne Hlast Hlen Hobs Hk.
  destruct (feed_fresh ticks s g Hg Hlock Hlast Hobs Hlen)
    as (s1 & Hs1 & Hlast1 & Hfr1 & Hlock1 & Hgame1 & _).
  assert (Hcount : counted g' s1 = 1).
  { unfold counted. rewrite decide_False; [done|congruence]. }
  destruct (update_video_accumulate k s1 g' Hk Hg' Hlock1)
    as (s' & Hs' & Hl' & Hf' & Hk' & Hgame' & _); [lia|].
  exists s'. rewrite feed_app, Hs1. simpl. rewrite Hs'. simpl.
  split; [done|]. split; [congruence|].
  unfold debounce. by rewrite Hl', Hf', Hk', Hcount.
Qed.

Lemma other_gesture_restarts_count_witness :
  ∃ s', feed (replicate 9 (rock 2) ++ [paper 2]) fresh = Some s' ∧
        debounce s' = ("paper", 1, false).
Proof.
  destruct (other_gesture_restarts_count fresh "rock" "paper"
              (replicate 9 (rock 2)) (paper 2))
    as (s' & Hs' & _ & Hd);
    [reflexivity | discriminate | discriminate | discriminate | discriminate
    | simpl; lia | repeat constructor | reflexivity |].
  exists s'. split; [exact Hs' | exact Hd].
Defined.

(** X18. The reset gives a new game in every state, reachable or not: the
    game, the candidate, the count, the lock and the labels are those of a
    program just started, so that whatever frames follow are played as a
    program just started plays them; and a second reset changes nothing. *)
Theorem reset_plays_as_new (s : t) (ticks : list Tick) :
  core (_reset_game s) = core fresh ∧
  labels (_reset_game s) = labels fresh ∧
  core <$> feed ticks (_reset_game s) = core <$> feed ticks fresh ∧
  _reset_game (_reset_game s) = _reset_game s.
Proof.
  assert (Hcore : core (_reset_game s) = core fresh).
  { unfold _reset_game. by destruct (_lockout_after_id s). }
  split; [done|]. split; [|split].
  - unfold _reset_game. by destruct (_lockout_after_id s).
  - by apply feed_core.
  - unfold _reset_game. destruct (_lockout_after_id s) eqn:Hid; simpl;
      [reflexivity|]. by rewrite Hid.
Qed.

End Running.
